(** * TicTacPro: the game-state engine and the computer player

    A shallow embedding of the two versions of the TicTacToe component:

    - [TicTacToe]: src/components/TicTacToe/TicTacToe.tsx, the current
      component, with a difficulty setting and a minimax search;
    - [Part001]:   src/unnamed/part_001, the typed component with the random
      computer player only.

    The handlers that [await playSound()] are modelled in two parts: what
    runs until the [await], and the rest of the handler, which runs when the
    sound has been dealt with and by then may find the state changed by
    other events.  Playing the sound itself touches no game state. *)

From Stdlib Require Import ZArith Lia Bool.
From stdpp Require Import base tactics option list.

Open Scope Z_scope.

(** ** JavaScript values held by the components *)

(** The two marks, the strings 'X' and 'O'. *)
Inductive mark := X | O.

(** What reading [squares[i]] can give: [null] for an empty cell, a mark, or
    [undefined] when [i] is not a cell of the array (or is a hole). *)
Inductive square := null | undefined | str (m : mark).

(** The [winner] field: [null] while the game runs, a mark, or 'draw'. *)
Inductive outcome := no_winner | draw | won (m : mark).

Global Instance mark_eq_dec : EqDecision mark.
Proof. solve_decision. Defined.
Global Instance square_eq_dec : EqDecision square.
Proof. solve_decision. Defined.
Global Instance outcome_eq_dec : EqDecision outcome.
Proof. solve_decision. Defined.

(** [a === b] on squares. *)
Definition strict_eq (a b : square) : bool := bool_decide (a = b).

(** JavaScript truthiness: only a non-empty string is truthy here. *)
Definition truthy (v : square) : bool :=
  match v with str _ => true | _ => false end.

(** Truthiness of a [winner] value ('draw' is a non-empty string). *)
Definition outcome_truthy (w : outcome) : bool :=
  match w with no_winner => false | _ => true end.

Abbreviation Board := (list square).

(** [b[i]]: reading outside the array gives [undefined]. *)
Definition js_get (b : Board) (i : nat) : square := default undefined (b !! i).

(** [b[i] = v]: inside the array the cell is replaced; outside, the array
    grows up to index [i], the cells in between being holes that read as
    [undefined]. *)
Definition js_set (b : Board) (i : nat) (v : square) : Board :=
  if decide (i < length b)%nat then <[i:=v]> b
  else b ++ replicate (i - length b) undefined ++ [v].

(** [newBoard[move] = v] where [move] may be -1 or [undefined] ([None]):
    these are not array indices, and no cell changes. *)
Definition js_set_at (b : Board) (move : option nat) (v : square) : Board :=
  match move with Some i => js_set b i v | None => b end.

(** [squares.includes(null)]. *)
Definition includes_null (b : Board) : bool := existsb (strict_eq null) b.

(** [squares.every(square => square !== null)]. *)
Definition every_not_null (b : Board) : bool :=
  forallb (fun s => negb (strict_eq s null)) b.

(** [Array(9).fill(null)]. *)
Definition initialBoard : Board := replicate 9 null.

(** The eight lines, rows then columns then diagonals. *)
Definition winningLines : list (nat * nat * nat) :=
  [ (0, 1, 2); (3, 4, 5); (6, 7, 8);
    (0, 3, 6); (1, 4, 7); (2, 5, 8);
    (0, 4, 8); (2, 4, 6) ]%nat.

(** The test [squares[a] && squares[a] === squares[b] && squares[a] === squares[c]]
    of one line: the mark of the line when it holds. *)
Definition line_mark (squares : Board) (l : nat * nat * nat) : option mark :=
  let '(a, b, c) := l in
  match js_get squares a with
  | str m =>
      if strict_eq (js_get squares a) (js_get squares b)
         && strict_eq (js_get squares a) (js_get squares c)
      then Some m else None
  | _ => None
  end.

(** [for (const [a, b, c] of lines) if (...) return squares[a];] *)
Fixpoint first_line (squares : Board) (lines : list (nat * nat * nat)) : option mark :=
  match lines with
  | [] => None
  | l :: rest =>
      match line_mark squares l with
      | Some m => Some m
      | None => first_line squares rest
      end
  end.

Inductive GameMode := single | multi.
Inductive Difficulty := easy | hard.

Global Instance GameMode_eq_dec : EqDecision GameMode.
Proof. solve_decision. Defined.
Global Instance Difficulty_eq_dec : EqDecision Difficulty.
Proof. solve_decision. Defined.

(** The [scores] object [{ X: n, O: m }]. *)
Record Scores := { score_X : Z; score_O : Z }.

Definition score_of (s : Scores) (m : mark) : Z :=
  match m with X => score_X s | O => score_O s end.

(** [{ ...prev, [gameWinner]: prev[gameWinner] + 1 }] *)
Definition bump (prev : Scores) (gameWinner : mark) : Scores :=
  match gameWinner with
  | X => {| score_X := score_X prev + 1; score_O := score_O prev |}
  | O => {| score_X := score_X prev; score_O := score_O prev + 1 |}
  end.

(** [currentPlayer === 'X' ? 'O' : 'X'] *)
Definition other (currentPlayer : mark) : mark :=
  match currentPlayer with X => O | O => X end.

(** ** Numbers of the minimax search *)

(** The search computes with small integers, [Infinity], [-Infinity], and a
    quotient that would be [NaN] were the divisor zero. *)
Inductive num := NegInf | Fin (z : Z) | PosInf | NaN.

Global Instance num_eq_dec : EqDecision num.
Proof. solve_decision. Defined.

(** [a > b] *)
Definition num_gt (a b : num) : bool :=
  match a, b with
  | NaN, _ | _, NaN => false
  | NegInf, _ => false
  | Fin _, NegInf => true
  | Fin x, Fin y => bool_decide (y < x)
  | Fin _, PosInf => false
  | PosInf, PosInf => false
  | PosInf, _ => true
  end.

(** [Math.max(a, b)] *)
Definition Math_max (a b : num) : num :=
  match a, b with
  | NaN, _ | _, NaN => NaN
  | PosInf, _ | _, PosInf => PosInf
  | NegInf, v | v, NegInf => v
  | Fin x, Fin y => Fin (Z.max x y)
  end.

(** [Math.min(a, b)] *)
Definition Math_min (a b : num) : num :=
  match a, b with
  | NaN, _ | _, NaN => NaN
  | NegInf, _ | _, NegInf => NegInf
  | PosInf, v | v, PosInf => v
  | Fin x, Fin y => Fin (Z.min x y)
  end.

(** [score / Math.abs(score)] for an integer [score]: [0 / 0] is [NaN]; for
    a nonzero score the quotient is exactly 1 or -1. *)
Definition unit_of (score : Z) : num :=
  if decide (Z.abs score = 0) then NaN else Fin (score / Z.abs score).

(** [score - depth * (score / Math.abs(score))] *)
Definition shaped (score depth : Z) : num :=
  match unit_of score with
  | Fin q => Fin (score - depth * q)
  | _ => NaN
  end.

(** The values [Math.floor(Math.random() * n)] can take, [Math.random()]
    being at least 0 and below 1: an index below [n], and 0 when [n] is 0. *)
Definition random_index (k n : nat) : Prop :=
  (k < n)%nat ∨ (n = 0%nat ∧ k = 0%nat).

(** ** src/components/TicTacToe/TicTacToe.tsx *)

Module TicTacToe.

(** The component's [useState] cells that the game logic reads or writes. *)
Record state := {
  board : list square;
  currentPlayer : mark;
  winner : outcome;
  gameMode : GameMode;
  difficulty : Difficulty;
  scores : Scores;
}.

(** The state of a freshly mounted component. *)
Definition initial : state :=
  {| board := initialBoard; currentPlayer := X; winner := no_winner;
     gameMode := single; difficulty := hard;
     scores := {| score_X := 0; score_O := 0 |} |}.

(** [evaluateWinner]: the first line that holds, else
    [squares.includes(null) ? null : 'draw']. *)
Definition evaluateWinner (squares : Board) : outcome :=
  match first_line squares winningLines with
  | Some m => won m
  | None => if includes_null squares then no_winner else draw
  end.

(** [setBoard(newBoard)] *)
Definition setBoard (s : state) (newBoard : Board) : state :=
  {| board := newBoard; currentPlayer := currentPlayer s; winner := winner s;
     gameMode := gameMode s; difficulty := difficulty s; scores := scores s |}.

(** The end of both move handlers, on the state as it is when they get
    there:
    [if (gameWinner) { setWinner(gameWinner);
       if (gameWinner !== 'draw') setScores((prev) => ...prev[gameWinner] + 1) }
     else setCurrentPlayer(next)]. *)
Definition record_outcome (s : state) (gameWinner : outcome) (next : mark) : state :=
  match gameWinner with
  | no_winner =>
      {| board := board s; currentPlayer := next; winner := winner s;
         gameMode := gameMode s; difficulty := difficulty s; scores := scores s |}
  | draw =>
      {| board := board s; currentPlayer := currentPlayer s; winner := draw;
         gameMode := gameMode s; difficulty := difficulty s; scores := scores s |}
  | won m =>
      {| board := board s; currentPlayer := currentPlayer s; winner := won m;
         gameMode := gameMode s; difficulty := difficulty s;
         scores := bump (scores s) m |}
  end.

(** A handler suspended at its [await playSound()], with the values of its
    closure that the rest of it reads. *)
Inductive continuation :=
| rest_of_updateGameState (newBoard : Board) (currentPlayer : mark)
| rest_of_makeComputerMove (currentBoard : Board) (move : option nat).

(** [updateGameState(index)] up to its [await]: the guard, then
    [newBoard] and [setBoard(newBoard)].  The state after this part, and the
    rest of the handler if the move was accepted. *)
Definition updateGameState (index : nat) (s : state) : state * option continuation :=
  if truthy (js_get (board s) index) || outcome_truthy (winner s) then (s, None)
  else
    let newBoard := js_set (board s) index (str (currentPlayer s)) in
    (setBoard s newBoard, Some (rest_of_updateGameState newBoard (currentPlayer s))).

(** [handleClick(index)] *)
Definition handleClick (index : nat) (s : state) : state * option continuation :=
  if bool_decide (gameMode s = multi) || bool_decide (currentPlayer s = X)
  then updateGameState index s
  else (s, None).

(** [evaluate] of the hard branch: 10 for a line of 'O', -10 for a line of
    'X', 0 when no line holds. *)
Definition evaluate (b : Board) : Z :=
  match first_line b winningLines with
  | Some O => 10
  | Some X => -10
  | None => 0
  end.

(** The [for (let i = 0; i < 9; i++)] loop of [minimax], over the indices
    still to visit.  The one array [b] is written and restored in place, so
    it is threaded through the loop and through the recursive calls
    [rec]. *)
Fixpoint minimax_loop (rec : Board -> Z -> bool -> option (num * Board))
    (depth : Z) (isMax : bool) (indices : list nat) (best : num) (b : Board)
    : option (num * Board) :=
  match indices with
  | [] => Some (best, b)
  | i :: rest =>
      if truthy (js_get b i) then minimax_loop rec depth isMax rest best b
      else
        let b1 := js_set b i (str (if isMax then O else X)) in
        match rec b1 (depth + 1) (negb isMax) with
        | None => None
        | Some (value, b2) =>
            let b3 := js_set b2 i null in
            let best' := if isMax then Math_max best value else Math_min best value in
            minimax_loop rec depth isMax rest best' b3
        end
  end.

(** [minimax(b, depth, isMax)], with the value it returns and the array as
    it leaves it.  [fuel] bounds the recursion depth; [None] means the
    bound was hit. *)
Fixpoint minimax (fuel : nat) (b : Board) (depth : Z) (isMax : bool)
    : option (num * Board) :=
  match fuel with
  | 0%nat => None
  | S fuel' =>
      let score := evaluate b in
      if negb (bool_decide (score = 0)) then Some (shaped score depth, b)
      else if negb (includes_null b) then Some (Fin 0, b)
      else
        minimax_loop (minimax fuel') depth isMax (seq 0 9)
          (if isMax then NegInf else PosInf) b
  end.

(** A game has at most nine plies; one more call reaches the leaves. *)
Definition search_fuel : nat := 10.

(** The root loop of the hard branch: [bestVal], [move] and the array. *)
Fixpoint root_loop (indices : list nat) (bestVal : num) (move : option nat)
    (currentBoard : Board) : option (option nat * Board) :=
  match indices with
  | [] => Some (move, currentBoard)
  | i :: rest =>
      if truthy (js_get currentBoard i) then root_loop rest bestVal move currentBoard
      else
        let b1 := js_set currentBoard i (str O) in
        match minimax search_fuel b1 0 false with
        | None => None
        | Some (val, b2) =>
            let b3 := js_set b2 i null in
            if num_gt val bestVal then root_loop rest val (Some i) b3
            else root_loop rest bestVal move b3
        end
  end.

(** The indices of the [null] cells:
    [currentBoard.map((v, i) => (v === null ? i : null)).filter((v) => v !== null)]. *)
Definition available (currentBoard : Board) : list nat :=
  omap id (imap (fun i v => if strict_eq v null then Some i else None) currentBoard).

(** The move-choosing part of [makeComputerMove]: the chosen [move] and the
    array as the search leaves it.  [k] is the value of
    [Math.floor(Math.random() * available.length)], read in the easy
    branch only.  [move] is [None] for -1 (hard, nothing tried) and for
    [undefined] (easy, nothing available). *)
Definition selectMove (d : Difficulty) (k : nat) (currentBoard : Board)
    : option (option nat * Board) :=
  match d with
  | hard => root_loop (seq 0 9) NegInf None currentBoard
  | easy => Some (available currentBoard !! k, currentBoard)
  end.

(** [makeComputerMove(currentBoard)] up to its [await], called on the
    component's board: the move is chosen, nothing is set yet.  The array
    searched is the state's own array (after a reset, the module's
    [initialBoard] object itself) and the hard branch writes to it in place,
    so the state holds the array as the search leaves it. *)
Definition makeComputerMove (k : nat) (s : state) : option (state * continuation) :=
  match selectMove (difficulty s) k (board s) with
  | None => None
  | Some (move, currentBoard) =>
      Some (setBoard s currentBoard, rest_of_makeComputerMove currentBoard move)
  end.

(** The rest of a handler, run on the state [s] as it is when the sound has
    been dealt with.  [updateGameState] evaluates its own [newBoard] and
    flips the turn it was started with; [makeComputerMove] copies the array
    it was called on, writes 'O' and sets the board. *)
Definition resume (c : continuation) (s : state) : state :=
  match c with
  | rest_of_updateGameState newBoard currentPlayer =>
      record_outcome s (evaluateWinner newBoard) (other currentPlayer)
  | rest_of_makeComputerMove currentBoard move =>
      let newBoard := js_set_at currentBoard move (str O) in
      record_outcome (setBoard s newBoard) (evaluateWinner newBoard) X
  end.

(** The condition of the effect that schedules the computer's move. *)
Definition computerMoveDue (s : state) : bool :=
  bool_decide (gameMode s = single) && bool_decide (currentPlayer s = O)
  && negb (outcome_truthy (winner s)).

(** [resetGame()] *)
Definition resetGame (s : state) : state :=
  {| board := initialBoard; currentPlayer := X; winner := no_winner;
     gameMode := gameMode s; difficulty := difficulty s; scores := scores s |}.

(** [toggleGameMode()] *)
Definition toggleGameMode (s : state) : state :=
  resetGame
    {| board := board s; currentPlayer := currentPlayer s; winner := winner s;
       gameMode := match gameMode s with single => multi | multi => single end;
       difficulty := difficulty s; scores := scores s |}.

(** [toggleDifficulty()] *)
Definition toggleDifficulty (s : state) : state :=
  resetGame
    {| board := board s; currentPlayer := currentPlayer s; winner := winner s;
       gameMode := gameMode s;
       difficulty := match difficulty s with easy => hard | hard => easy end;
       scores := scores s |}.

(** What can happen to the component: a press on square [index], the
    scheduled computer move firing with random draw [k], the sound of the
    [j]-th suspended handler being dealt with, and the three buttons. *)
Inductive event :=
| Press (index : nat)
| TimerFires (k : nat)
| SoundDone (j : nat)
| PressReset
| PressMode
| PressDifficulty.

(** One transition of the component with its suspended handlers.  The view
    renders one touchable per cell of the board, so a press carries an index
    of the array.  The effect re-arms the timer whenever one of its
    dependencies changes and the condition holds, so the timer may fire in a
    state where [computerMoveDue] holds; [k] is its random draw.  A
    suspended handler may be resumed at any later time, in any order; the
    buttons do not cancel it. *)
Inductive step : state * list continuation -> event -> state * list continuation -> Prop :=
| step_press s pending index s' c :
    (index < length (board s))%nat ->
    handleClick index s = (s', c) ->
    step (s, pending) (Press index) (s', pending ++ option_list c)
| step_timer s pending k s' c :
    computerMoveDue s = true ->
    random_index k (length (available (board s))) ->
    makeComputerMove k s = Some (s', c) ->
    step (s, pending) (TimerFires k) (s', pending ++ [c])
| step_sound s pending j c :
    pending !! j = Some c ->
    step (s, pending) (SoundDone j) (resume c s, delete j pending)
| step_reset s pending : step (s, pending) PressReset (resetGame s, pending)
| step_mode s pending : step (s, pending) PressMode (toggleGameMode s, pending)
| step_difficulty s pending :
    step (s, pending) PressDifficulty (toggleDifficulty s, pending).

(** Runs of the component. *)
Inductive run : state * list continuation -> list event -> state * list continuation -> Prop :=
| run_nil cfg : run cfg [] cfg
| run_cons cfg e cfg1 es cfg2 : step cfg e cfg1 -> run cfg1 es cfg2 -> run cfg (e :: es) cfg2.

End TicTacToe.

(** ** src/unnamed/part_001 *)

Module Part001.

(** The game state of the typed component (no difficulty setting). *)
Record state := {
  board : list square;
  currentPlayer : mark;
  winner : outcome;
  gameMode : GameMode;
  scores : Scores;
}.

Definition initial : state :=
  {| board := initialBoard; currentPlayer := X; winner := no_winner;
     gameMode := single; scores := {| score_X := 0; score_O := 0 |} |}.

(** [checkWinner]: the first line that holds, else 'draw' when
    [squares.every(square => square !== null)], else [null]. *)
Definition checkWinner (squares : Board) : outcome :=
  match first_line squares winningLines with
  | Some m => won m
  | None => if every_not_null squares then draw else no_winner
  end.

(** The common end of [handleClick] and [makeComputerMove], on the state
    [s] as it is when they get there: [setBoard(newBoard)], then a winner
    and its score are recorded, or the turn is set to [next]. *)
Definition settle (s : state) (newBoard : Board) (next : mark) : state :=
  let gameWinner := checkWinner newBoard in
  match gameWinner with
  | no_winner =>
      {| board := newBoard; currentPlayer := next; winner := winner s;
         gameMode := gameMode s; scores := scores s |}
  | draw =>
      {| board := newBoard; currentPlayer := currentPlayer s; winner := draw;
         gameMode := gameMode s; scores := scores s |}
  | won m =>
      {| board := newBoard; currentPlayer := currentPlayer s; winner := won m;
         gameMode := gameMode s; scores := bump (scores s) m |}
  end.

(** [handleClick] suspended at its [await playSound()], with the board, the
    index and the turn of its closure. *)
Inductive continuation :=
| rest_of_handleClick (board : Board) (index : nat) (currentPlayer : mark).

(** [handleClick(index)] up to its [await]: only the guard; nothing is set.
    The rest of the handler if the guard lets the move through. *)
Definition handleClick (index : nat) (s : state) : option continuation :=
  if truthy (js_get (board s) index) || outcome_truthy (winner s) then None
  else Some (rest_of_handleClick (board s) index (currentPlayer s)).

(** The rest of [handleClick], run on the state [s] as it is when the sound
    has been dealt with: the board of the closure is copied, the mark of the
    closure's turn is written, and the outcome or the turn is set. *)
Definition resume (c : continuation) (s : state) : state :=
  match c with
  | rest_of_handleClick board index currentPlayer =>
      let newBoard := js_set board index (str currentPlayer) in
      settle s newBoard (other currentPlayer)
  end.

(** The [onPress] of a rendered square:
    [if (!board[index] && !winner) handleClick(index)]. *)
Definition onPress (index : nat) (s : state) : option continuation :=
  if negb (truthy (js_get (board s) index)) && negb (outcome_truthy (winner s))
  then handleClick index s else None.

(** [emptySquares] *)
Definition emptySquares (currentBoard : Board) : list nat :=
  omap id (imap (fun i v => if strict_eq v null then Some i else None) currentBoard).

(** [makeComputerMove(currentBoard)] on the component's board; it has no
    [await].  [randomIndex] is the value of
    [Math.floor(Math.random() * emptySquares.length)]. *)
Definition makeComputerMove (randomIndex : nat) (s : state) : state :=
  let currentBoard := board s in
  if bool_decide (0 < length (emptySquares currentBoard))%nat then
    let index := emptySquares currentBoard !! randomIndex in
    let newBoard := js_set_at currentBoard index (str O) in
    settle s newBoard X
  else s.

(** The condition of the effect that schedules the computer's move. *)
Definition computerMoveDue (s : state) : bool :=
  bool_decide (gameMode s = single) && bool_decide (currentPlayer s = O)
  && negb (outcome_truthy (winner s)).

(** [resetGame()] *)
Definition resetGame (s : state) : state :=
  {| board := replicate 9 null; currentPlayer := X; winner := no_winner;
     gameMode := gameMode s; scores := scores s |}.

(** [toggleGameMode()] *)
Definition toggleGameMode (s : state) : state :=
  resetGame
    {| board := board s; currentPlayer := currentPlayer s; winner := winner s;
       gameMode := match gameMode s with single => multi | multi => single end;
       scores := scores s |}.

Inductive event :=
| Press (index : nat)
| TimerFires (randomIndex : nat)
| SoundDone (j : nat)
| PressReset
| PressMode.

(** One transition of the component with its suspended handlers, as in the
    other component. *)
Inductive step : state * list continuation -> event -> state * list continuation -> Prop :=
| step_press s pending index :
    (index < length (board s))%nat ->
    step (s, pending) (Press index) (s, pending ++ option_list (onPress index s))
| step_timer s pending randomIndex :
    computerMoveDue s = true ->
    random_index randomIndex (length (emptySquares (board s))) ->
    step (s, pending) (TimerFires randomIndex) (makeComputerMove randomIndex s, pending)
| step_sound s pending j c :
    pending !! j = Some c ->
    step (s, pending) (SoundDone j) (resume c s, delete j pending)
| step_reset s pending : step (s, pending) PressReset (resetGame s, pending)
| step_mode s pending : step (s, pending) PressMode (toggleGameMode s, pending).

(** Runs of the component. *)
Inductive run : state * list continuation -> list event -> state * list continuation -> Prop :=
| run_nil cfg : run cfg [] cfg
| run_cons cfg e cfg1 es cfg2 : step cfg e cfg1 -> run cfg1 es cfg2 -> run cfg (e :: es) cfg2.

End Part001.

(** ** Boards of the game *)

(** A board as the components hold it: nine cells, each [null] or a mark. *)
Definition is_board (b : Board) : Prop :=
  length b = 9%nat ∧ Forall (fun v => v ≠ undefined) b.

(** A line holds for mark [m]: its three cells carry [m]. *)
Definition line_holds (squares : Board) (l : nat * nat * nat) (m : mark) : Prop :=
  squares !! l.1.1 = Some (str m) ∧ squares !! l.1.2 = Some (str m)
  ∧ squares !! l.2 = Some (str m).

(** No cell of the board is empty. *)
Definition full (squares : Board) : Prop :=
  ∀ i v, squares !! i = Some v → ∃ m, v = str m.

(** The number of [null] cells, the measure of the search. *)
Definition count_null (b : Board) : nat :=
  length (filter (fun v => v = null) b).

(** The value the root loop gets for trying cell [i] on board [b]. *)
Definition move_value (b : Board) (i : nat) : option num :=
  fst <$> TicTacToe.minimax TicTacToe.search_fuel (js_set b i (str O)) 0 false.

(** ** The never-lose check *)

(** [safeX n b]: with 'X' to move on [b], whatever 'X' plays and with
    every reply chosen by the hard branch, 'X' never completes a line within
    [n] rounds, and the game is over by then. *)
Definition safeO (safeX : Board -> bool) (b1 : Board) : bool :=
  match TicTacToe.selectMove hard 0 b1 with
  | None => false
  | Some (move, currentBoard) =>
      let b2 := js_set_at currentBoard move (str O) in
      match TicTacToe.evaluateWinner b2 with
      | won X => false
      | no_winner => safeX b2
      | _ => true
      end
  end.

Definition afterX (safeX : Board -> bool) (b1 : Board) : bool :=
  match TicTacToe.evaluateWinner b1 with
  | won X => false
  | no_winner => safeO safeX b1
  | _ => true
  end.

Fixpoint safeX (n : nat) (b : Board) : bool :=
  match n with
  | 0%nat => false
  | S n' =>
      forallb (fun i => if truthy (js_get b i) then true
                        else afterX (safeX n') (js_set b i (str X)))
              (seq 0 9)
  end.

(** ** Predicates of the statements *)

(** No line of [lines] holds on the board. *)
Definition no_line (squares : Board) (lines : list (nat * nat * nat)) : Prop :=
  ∀ l m, l ∈ lines → ¬ line_holds squares l m.

(** What the root loop knows after the cells below [n]: nothing was tried
    yet, or [move] is the first cell of greatest value among those tried. *)
Definition root_inv (b : Board) (n : nat) (bestVal : num) (move : option nat) : Prop :=
  match move with
  | None => bestVal = NegInf ∧ ∀ j, (j < n)%nat → b !! j ≠ Some null
  | Some i =>
      (i < n)%nat ∧ b !! i = Some null ∧
      ∃ z, bestVal = Fin z ∧ move_value b i = Some (Fin z) ∧
        ∀ j, (j < n)%nat → b !! j = Some null →
          ∃ zj, move_value b j = Some (Fin zj) ∧ zj ≤ z ∧ ((j < i)%nat → zj < z)
  end.

(** Positions of legal alternating play from the empty board, 'X' first,
    with the mark to move. *)
Inductive legal_play : Board → mark → Prop :=
| legal_start : legal_play initialBoard X
| legal_move b m i :
    legal_play b m → TicTacToe.evaluateWinner b = no_winner → b !! i = Some null →
    legal_play (<[i:=str m]> b) (other m).




(** ** Handlers whose sound is dealt with at once *)

(** When [playSound] has nothing to play it returns at once, and the rest
    of the handler runs before any other event.  The definitions below are
    the handlers run through in this way, and the runs of the components in
    which every handler is. *)

(** A move handler run through on state [s]: [newBoard] is set and its
    outcome recorded. *)
Definition settle (s : TicTacToe.state) (newBoard : Board) (next : mark) : TicTacToe.state :=
  TicTacToe.record_outcome (TicTacToe.setBoard s newBoard)
    (TicTacToe.evaluateWinner newBoard) next.

(** The rest of a handler run right after its first part. *)
Definition finish (r : TicTacToe.state * option TicTacToe.continuation) : TicTacToe.state :=
  match r.2 with
  | Some c => TicTacToe.resume c r.1
  | None => r.1
  end.

Definition q_updateGameState (index : nat) (s : TicTacToe.state) : TicTacToe.state :=
  finish (TicTacToe.updateGameState index s).

Definition q_handleClick (index : nat) (s : TicTacToe.state) : TicTacToe.state :=
  finish (TicTacToe.handleClick index s).

Definition q_makeComputerMove (k : nat) (s : TicTacToe.state) : option TicTacToe.state :=
  match TicTacToe.makeComputerMove k s with
  | Some (s1, c) => Some (TicTacToe.resume c s1)
  | None => None
  end.

Definition pq_handleClick (index : nat) (s : Part001.state) : Part001.state :=
  match Part001.handleClick index s with
  | Some c => Part001.resume c s
  | None => s
  end.

Definition pq_onPress (index : nat) (s : Part001.state) : Part001.state :=
  match Part001.onPress index s with
  | Some c => Part001.resume c s
  | None => s
  end.

(** One event of the component with its handler run through. *)
Inductive quiet_step (s : TicTacToe.state) : TicTacToe.event → TicTacToe.state → Prop :=
| quiet_press index :
    (index < length (TicTacToe.board s))%nat →
    quiet_step s (TicTacToe.Press index) (q_handleClick index s)
| quiet_timer k s' :
    TicTacToe.computerMoveDue s = true →
    random_index k (length (TicTacToe.available (TicTacToe.board s))) →
    q_makeComputerMove k s = Some s' →
    quiet_step s (TicTacToe.TimerFires k) s'
| quiet_reset : quiet_step s TicTacToe.PressReset (TicTacToe.resetGame s)
| quiet_mode : quiet_step s TicTacToe.PressMode (TicTacToe.toggleGameMode s)
| quiet_difficulty :
    quiet_step s TicTacToe.PressDifficulty (TicTacToe.toggleDifficulty s).

Inductive quiet_run : TicTacToe.state → list TicTacToe.event → TicTacToe.state → Prop :=
| quiet_nil s : quiet_run s [] s
| quiet_cons s e s1 es s2 :
    quiet_step s e s1 → quiet_run s1 es s2 → quiet_run s (e :: es) s2.

Inductive p_quiet_step (s : Part001.state) : Part001.event → Part001.state → Prop :=
| p_quiet_press index :
    (index < length (Part001.board s))%nat →
    p_quiet_step s (Part001.Press index) (pq_onPress index s)
| p_quiet_timer randomIndex :
    Part001.computerMoveDue s = true →
    random_index randomIndex (length (Part001.emptySquares (Part001.board s))) →
    p_quiet_step s (Part001.TimerFires randomIndex) (Part001.makeComputerMove randomIndex s)
| p_quiet_reset : p_quiet_step s Part001.PressReset (Part001.resetGame s)
| p_quiet_mode : p_quiet_step s Part001.PressMode (Part001.toggleGameMode s).

Inductive p_quiet_run : Part001.state → list Part001.event → Part001.state → Prop :=
| p_quiet_nil s : p_quiet_run s [] s
| p_quiet_cons s e s1 es s2 :
    p_quiet_step s e s1 → p_quiet_run s1 es s2 → p_quiet_run s (e :: es) s2.

(** The events other than the three buttons. *)
Definition is_move (e : TicTacToe.event) : Prop :=
  match e with
  | TicTacToe.PressReset | TicTacToe.PressMode | TicTacToe.PressDifficulty => False
  | _ => True
  end.

Definition p_is_move (e : Part001.event) : Prop :=
  match e with Part001.PressReset | Part001.PressMode => False | _ => True end.

Global Instance is_move_dec e : Decision (is_move e).
Proof. destruct e; simpl; apply _. Defined.

Global Instance p_is_move_dec e : Decision (p_is_move e).
Proof. destruct e; simpl; apply _. Defined.

(** The events that leave mode and difficulty alone. *)
Definition keeps_config (e : TicTacToe.event) : Prop :=
  match e with TicTacToe.PressMode | TicTacToe.PressDifficulty => False | _ => True end.

(** A game that has just begun: empty board, 'X' to move, no outcome. *)
Definition fresh_game (s : TicTacToe.state) : Prop :=
  TicTacToe.board s = initialBoard ∧ TicTacToe.currentPlayer s = X
  ∧ TicTacToe.winner s = no_winner.

Definition p_fresh_game (s : Part001.state) : Prop :=
  Part001.board s = initialBoard ∧ Part001.currentPlayer s = X
  ∧ Part001.winner s = no_winner.

(** The mark that would move next on a position: the turn while the game
    runs, and the other mark once it is over (the turn then stays with the
    mark that moved last). *)
Definition to_move (turn : mark) (w : outcome) : mark :=
  match w with no_winner => turn | _ => other turn end.

(** What the board, the turn and the outcome of a component satisfy
    together in the course of its games. *)
Definition position_inv (b : Board) (turn : mark) (w : outcome) : Prop :=
  is_board b
  ∧ w = TicTacToe.evaluateWinner b
  ∧ legal_play b (to_move turn w)
  ∧ (∀ l m, l ∈ winningLines → line_holds b l m → w = won m)
  ∧ (∀ m, w = won m → turn = m).

(** Board, turn and outcome after mark [mk] is written into cell [i]. *)
Definition placed_turn (b : Board) (i : nat) (mk : mark) : mark :=
  match TicTacToe.evaluateWinner (<[i:=str mk]> b) with
  | no_winner => other mk
  | _ => mk
  end.

(** The invariant on the states of the two components. *)
Definition game_inv (s : TicTacToe.state) : Prop :=
  position_inv (TicTacToe.board s) (TicTacToe.currentPlayer s) (TicTacToe.winner s).

Definition p_game_inv (s : Part001.state) : Prop :=
  position_inv (Part001.board s) (Part001.currentPlayer s) (Part001.winner s).

(** In single-player hard mode the position of the state never has 'X'
    winning and passes the never-lose check. *)
Definition never_lost (s : TicTacToe.state) : Prop :=
  is_board (TicTacToe.board s) ∧
  (TicTacToe.gameMode s = single → TicTacToe.difficulty s = hard →
   match TicTacToe.winner s with
   | won X => False
   | won O | draw => True
   | no_winner =>
       match TicTacToe.currentPlayer s with
       | X => ∃ n, safeX n (TicTacToe.board s) = true
       | O => ∃ n, safeO (safeX n) (TicTacToe.board s) = true
       end
   end).

(** The number of cells that hold mark [m]. *)
Definition count_mark (m : mark) (b : Board) : nat :=
  length (filter (fun v => v = str m) b).

(** The [map]/[filter] pipeline of [available] on the cells from index [n]
    on; [available] is the case [n = 0]. *)
Definition avail_from (n : nat) (b : Board) : list nat :=
  omap id (imap (fun i v => if strict_eq v null then Some (n + i)%nat else None) b).

(** The state of part_001 that a state of the component stands for: the
    same fields without the difficulty. *)
Definition forget (s : TicTacToe.state) : Part001.state :=
  {| Part001.board := TicTacToe.board s;
     Part001.currentPlayer := TicTacToe.currentPlayer s;
     Part001.winner := TicTacToe.winner s;
     Part001.gameMode := TicTacToe.gameMode s;
     Part001.scores := TicTacToe.scores s |}.

(** A suspended handler holds a board of nine cells and, if it holds a
    cell to write, a cell of the board. *)
Definition continuation_ok (c : TicTacToe.continuation) : Prop :=
  match c with
  | TicTacToe.rest_of_updateGameState newBoard _ => is_board newBoard
  | TicTacToe.rest_of_makeComputerMove currentBoard move =>
      is_board currentBoard ∧ ∀ i, move = Some i → (i < 9)%nat
  end.

Definition p_continuation_ok (c : Part001.continuation) : Prop :=
  match c with
  | Part001.rest_of_handleClick b index _ => is_board b ∧ (index < 9)%nat
  end.

(** The board of the state and the boards of the suspended handlers have
    nine cells, none of them [undefined]. *)
Definition config_ok (cfg : TicTacToe.state * list TicTacToe.continuation) : Prop :=
  is_board (TicTacToe.board cfg.1) ∧ Forall continuation_ok cfg.2.

Definition p_config_ok (cfg : Part001.state * list Part001.continuation) : Prop :=
  is_board (Part001.board cfg.1) ∧ Forall p_continuation_ok cfg.2.

(** * Properties *)

(** ** Reading and writing cells *)

Lemma js_get_lookup (b : Board) i v : b !! i = Some v → js_get b i = v.
Proof. unfold js_get. by intros ->. Qed.

Lemma js_set_in_range (b : Board) i v :
  (i < length b)%nat → js_set b i v = <[i:=v]> b.
Proof. intros H. unfold js_set. by rewrite decide_True. Qed.

Lemma js_set_null_cell (b : Board) i v :
  b !! i = Some null → js_set b i v = <[i:=v]> b.
Proof. intros H. apply js_set_in_range. by eapply lookup_lt_Some. Qed.

Lemma is_board_lookup (b : Board) i :
  is_board b → (i < 9)%nat → ∃ v, b !! i = Some v ∧ v ≠ undefined.
Proof.
  intros [Hlen Hall] Hi.
  destruct (lookup_lt_is_Some_2 b i) as [v Hv]; [lia|].
  exists v; split; [done|].
  rewrite Forall_lookup in Hall. by eapply Hall.
Qed.

Lemma is_board_falsy (b : Board) i :
  is_board b → (i < 9)%nat → truthy (js_get b i) = false → b !! i = Some null.
Proof.
  intros Hb Hi Hf. destruct (is_board_lookup b i Hb Hi) as (v & Hv & Hne).
  rewrite (js_get_lookup _ _ _ Hv) in Hf. by destruct v.
Qed.

Lemma truthy_get_null (b : Board) i :
  b !! i = Some null → truthy (js_get b i) = false.
Proof. intros H. by rewrite (js_get_lookup _ _ _ H). Qed.

Lemma truthy_get_str (b : Board) i :
  truthy (js_get b i) = true ↔ ∃ m, b !! i = Some (str m).
Proof.
  unfold js_get. split.
  - destruct (b !! i) as [[| |m]|]; simpl; try done. eauto.
  - by intros [m ->].
Qed.

Lemma is_board_insert (b : Board) i v :
  is_board b → v ≠ undefined → is_board (<[i:=v]> b).
Proof.
  intros [Hlen Hall] Hv. split; [by rewrite length_insert|].
  destruct (decide (i < length b)%nat) as [Hi|Hi].
  - by apply Forall_insert.
  - rewrite list_insert_ge; [done|lia].
Qed.

Lemma is_board_initial : is_board initialBoard.
Proof. split; [done|]. unfold initialBoard. simpl. repeat constructor; done. Qed.

Lemma insert_restore (b : Board) i v :
  b !! i = Some null → <[i:=null]> (<[i:=v]> b) = b.
Proof. intros H. rewrite list_insert_insert_eq. by apply list_insert_id. Qed.

Lemma includes_null_spec (b : Board) :
  includes_null b = true ↔ ∃ i, b !! i = Some null.
Proof.
  unfold includes_null. rewrite existsb_exists. split.
  - intros (v & Hin & Heq). apply bool_decide_eq_true in Heq. subst v.
    apply list_elem_of_In, list_elem_of_lookup in Hin. done.
  - intros [i Hi]. exists null. split; [|by apply bool_decide_eq_true].
    apply list_elem_of_In, list_elem_of_lookup. eauto.
Qed.

Lemma every_not_null_includes (b : Board) :
  every_not_null b = negb (includes_null b).
Proof.
  unfold every_not_null, includes_null. induction b as [|v b IH]; [done|].
  simpl. rewrite IH. unfold strict_eq. destruct v; simpl; try done.
Qed.

Lemma count_null_insert (b : Board) i m :
  b !! i = Some null → (count_null (<[i:=str m]> b) < count_null b)%nat.
Proof.
  unfold count_null. revert i. induction b as [|v b IH]; intros i H; [done|].
  destruct i as [|i]; simpl in *.
  - inversion H; subst. rewrite !filter_cons.
    repeat case_decide; simpl; try done; lia.
  - specialize (IH i H). rewrite !filter_cons.
    case_decide; simpl; lia.
Qed.

Lemma count_null_le_length (b : Board) : (count_null b ≤ length b)%nat.
Proof. unfold count_null. apply length_filter. Qed.

(** ** The minimax search: termination, restoration, finite values *)

Lemma evaluate_cases (b : Board) :
  TicTacToe.evaluate b = 10 ∨ TicTacToe.evaluate b = -10 ∨ TicTacToe.evaluate b = 0.
Proof.
  unfold TicTacToe.evaluate. destruct (first_line b winningLines) as [[|]|]; auto.
Qed.

Lemma unit_of_10 : unit_of 10 = Fin 1.
Proof. reflexivity. Qed.

Lemma unit_of_m10 : unit_of (-10) = Fin (-1).
Proof. reflexivity. Qed.

Lemma shaped_nonzero (score depth : Z) :
  score = 10 ∨ score = -10 →
  shaped score depth = Fin (score - depth * (score / Z.abs score))
  ∧ (score = 10 → shaped score depth = Fin (10 - depth))
  ∧ (score = -10 → shaped score depth = Fin (-10 + depth)).
Proof.
  intros [-> | ->]; unfold shaped.
  - rewrite unit_of_10. change (10 / Z.abs 10) with 1.
    repeat split; [|done]. intros _. f_equal. lia.
  - rewrite unit_of_m10. change (-10 / Z.abs (-10)) with (-1).
    repeat split; [done|]. intros _. f_equal. lia.
Qed.

Section loop.
Variable rec : Board → Z → bool → option (num * Board).
Variables (depth : Z) (isMax : bool) (b : Board).
Hypothesis Hb : is_board b.
Hypothesis Hrec : ∀ b' d m, is_board b' → (count_null b' < count_null b)%nat →
  ∃ z, rec b' d m = Some (Fin z, b').

(** The loop leaves the array as it found it; its result is finite as soon
    as one cell was tried. *)
Lemma minimax_loop_ok indices best :
  Forall (fun i => (i < 9)%nat) indices →
  best = (if isMax then NegInf else PosInf) ∨ (∃ z, best = Fin z) →
  ∃ best', TicTacToe.minimax_loop rec depth isMax indices best b = Some (best', b)
    ∧ ((∃ z, best' = Fin z)
       ∨ (best' = best ∧ ∀ i, i ∈ indices → b !! i ≠ Some null)).
Proof using Hb Hrec.
  revert best. induction indices as [|i rest IH]; intros best Hidx Hbest.
  - exists best. split; [done|]. right. split; [done|]. intros i Hi.
    by apply elem_of_nil in Hi.
  - apply Forall_cons in Hidx as [Hi Hrest]. simpl.
    destruct (truthy (js_get b i)) eqn:Ht.
    + destruct (IH best Hrest Hbest) as (best' & Hrun & Hres).
      exists best'. split; [done|]. destruct Hres as [?|[-> Hnone]]; [by left|].
      right. split; [done|]. intros j Hj. apply elem_of_cons in Hj as [->|Hj].
      * apply truthy_get_str in Ht as [m Hm]. congruence.
      * by apply Hnone.
    + pose proof (is_board_falsy b i Hb Hi Ht) as Hnull.
      rewrite (js_set_null_cell _ _ _ Hnull).
      set (mk := if isMax then O else X).
      destruct (Hrec (<[i:=str mk]> b) (depth + 1) (negb isMax)) as [z Hz].
      { by apply is_board_insert. }
      { by apply count_null_insert. }
      rewrite Hz. rewrite js_set_in_range.
      2:{ rewrite length_insert. by eapply lookup_lt_Some. }
      rewrite (insert_restore _ _ _ Hnull).
      set (best1 := if isMax then Math_max best (Fin z) else Math_min best (Fin z)).
      assert (∃ z1, best1 = Fin z1) as Hfin.
      { subst best1. destruct isMax; destruct Hbest as [->|[z0 ->]]; simpl; eauto. }
      destruct (IH best1 Hrest (or_intror Hfin)) as (best' & Hrun & Hres).
      exists best'. split; [done|]. left.
      destruct Hres as [?|[-> _]]; done.
Qed.
End loop.

(** The defining equation of one call of the search. *)
Lemma minimax_S fuel (b : Board) depth isMax :
  TicTacToe.minimax (S fuel) b depth isMax =
    if negb (bool_decide (TicTacToe.evaluate b = 0))
    then Some (shaped (TicTacToe.evaluate b) depth, b)
    else if negb (includes_null b) then Some (Fin 0, b)
    else TicTacToe.minimax_loop (TicTacToe.minimax fuel) depth isMax (seq 0 9)
           (if isMax then NegInf else PosInf) b.
Proof. reflexivity. Qed.

(** With fuel above the number of empty cells the search returns a finite
    value and the array exactly as it was passed in. *)
Lemma minimax_ok fuel (b : Board) depth isMax :
  is_board b → (count_null b < fuel)%nat →
  ∃ z, TicTacToe.minimax fuel b depth isMax = Some (Fin z, b).
Proof.
  revert b depth isMax. induction fuel as [|fuel IH]; intros b depth isMax Hb Hfuel; [lia|].
  rewrite minimax_S. case_bool_decide as Hscore; simpl negb; cbv iota.
  - destruct (includes_null b) eqn:Hinc; simpl negb; cbv iota; [|by eauto].
    destruct (minimax_loop_ok (TicTacToe.minimax fuel) depth isMax b Hb) with
      (indices := seq 0 9) (best := if isMax then NegInf else PosInf)
      as (best' & Hrun & Hres).
    + intros b' d m Hb' Hlt. apply IH; [done|lia].
    + apply Forall_forall. intros i Hi. apply elem_of_seq in Hi. lia.
    + by left.
    + rewrite Hrun. destruct Hres as [[z ->]|[_ Hnone]]; [by eauto|].
      apply includes_null_spec in Hinc as [i Hi]. exfalso. apply (Hnone i); [|done].
      apply elem_of_seq. pose proof (lookup_lt_Some _ _ _ Hi). destruct Hb. lia.
  - destruct (evaluate_cases b) as [H|[H|H]]; [| |done].
    + destruct (shaped_nonzero _ depth (or_introl H)) as (-> & _). eauto.
    + destruct (shaped_nonzero _ depth (or_intror H)) as (-> & _). eauto.
Qed.

Lemma search_fuel_enough (b : Board) :
  is_board b → (count_null b < TicTacToe.search_fuel)%nat.
Proof.
  intros [Hlen _]. pose proof (count_null_le_length b).
  unfold TicTacToe.search_fuel. lia.
Qed.

(** Every candidate move of the root has a finite value. *)
Lemma move_value_finite (b : Board) i :
  is_board b → b !! i = Some null →
  ∃ z, TicTacToe.minimax TicTacToe.search_fuel (<[i:=str O]> b) 0 false
         = Some (Fin z, <[i:=str O]> b)
       ∧ move_value b i = Some (Fin z).
Proof.
  intros Hb Hi.
  destruct (minimax_ok TicTacToe.search_fuel (<[i:=str O]> b) 0 false) as [z Hz].
  { by apply is_board_insert. }
  { apply search_fuel_enough. by apply is_board_insert. }
  exists z. split; [done|]. unfold move_value.
  rewrite (js_set_null_cell _ _ _ Hi), Hz. done.
Qed.

(** ** The root of the search *)

Lemma root_loop_ok (b : Board) :
  is_board b →
  ∀ len start bestVal move,
    (start + len = 9)%nat →
    root_inv b start bestVal move →
    ∃ bestVal' move',
      TicTacToe.root_loop (seq start len) bestVal move b = Some (move', b)
      ∧ root_inv b 9 bestVal' move'.
Proof.
  intros Hb. induction len as [|len IH]; intros start bestVal move Hlen Hinv.
  - simpl. exists bestVal, move. split; [done|].
    by replace 9%nat with start by lia.
  - cbn [seq TicTacToe.root_loop].
    destruct (truthy (js_get b start)) eqn:Ht.
    + apply IH; [lia|]. apply truthy_get_str in Ht as [m Hm].
      destruct move as [i|]; simpl in *.
      * destruct Hinv as (Hi & Hnull & z & -> & Hval & Hall).
        split; [lia|]. split; [done|]. exists z. do 2 (split; [done|]).
        intros j Hj Hjn. apply Hall; [|done].
        destruct (decide (j = start)) as [->|]; [congruence|lia].
      * destruct Hinv as [-> Hnone]. split; [done|]. intros j Hj.
        destruct (decide (j = start)) as [->|]; [congruence|]. apply Hnone. lia.
    + assert (b !! start = Some null) as Hnull by (apply is_board_falsy; [done|lia|done]).
      rewrite (js_set_null_cell _ _ _ Hnull).
      destruct (move_value_finite b start Hb Hnull) as (zv & Hrun & Hval).
      rewrite Hrun. rewrite js_set_in_range.
      2:{ rewrite length_insert. by eapply lookup_lt_Some. }
      rewrite (insert_restore _ _ _ Hnull).
      destruct (num_gt (Fin zv) bestVal) eqn:Hgt.
      * apply IH; [lia|]. simpl. split; [lia|]. split; [done|].
        exists zv. do 2 (split; [done|]). intros j Hj Hjn.
        destruct (decide (j = start)) as [->|Hne].
        { exists zv. split; [done|]. split; lia. }
        destruct move as [i|]; simpl in Hinv.
        -- destruct Hinv as (Hi & _ & z & -> & _ & Hall).
           destruct (Hall j ltac:(lia) Hjn) as (zj & Hzj & Hle & _).
           simpl in Hgt. apply bool_decide_eq_true in Hgt.
           exists zj. split; [done|]. split; lia.
        -- destruct Hinv as [_ Hnone]. exfalso. apply (Hnone j); [lia|done].
      * destruct move as [i|]; simpl in Hinv.
        -- destruct Hinv as (Hi & Hinull & z & -> & Hvi & Hall).
           simpl in Hgt. apply bool_decide_eq_false in Hgt.
           apply IH; [lia|]. simpl. split; [lia|]. split; [done|].
           exists z. do 2 (split; [done|]). intros j Hj Hjn.
           destruct (decide (j = start)) as [->|Hne].
           { exists zv. split; [done|]. split; lia. }
           apply Hall; [lia|done].
        -- destruct Hinv as [-> _]. done.
Qed.

(** The hard branch on a board: it returns the array unchanged, and the
    first cell of greatest value when a cell is empty. *)
Lemma selectMove_hard_ok (b : Board) k :
  is_board b → (∃ i, b !! i = Some null) →
  ∃ i z, TicTacToe.selectMove hard k b = Some (Some i, b)
    ∧ (i < 9)%nat ∧ b !! i = Some null ∧ move_value b i = Some (Fin z)
    ∧ ∀ j, b !! j = Some null →
        ∃ zj, move_value b j = Some (Fin zj) ∧ zj ≤ z ∧ ((j < i)%nat → zj < z).
Proof.
  intros Hb [i0 Hi0].
  destruct (root_loop_ok b Hb 9 0 NegInf None) as (bestVal & move & Hrun & Hinv).
  { done. }
  { simpl. split; [done|]. intros j Hj. lia. }
  assert (i0 < 9)%nat as Hlt.
  { pose proof (lookup_lt_Some _ _ _ Hi0). destruct Hb. lia. }
  destruct move as [i|]; simpl in Hinv.
  - destruct Hinv as (Hi & Hnull & z & -> & Hval & Hall).
    exists i, z. split; [done|]. do 3 (split; [done|]).
    intros j Hj. apply Hall; [|done].
    pose proof (lookup_lt_Some _ _ _ Hj). destruct Hb. lia.
  - destruct Hinv as [_ Hnone]. exfalso. by apply (Hnone i0).
Qed.

(** The list of available cells holds exactly the [null] cells, in
    ascending order. *)
Lemma available_lookup (b : Board) k i :
  TicTacToe.available b !! k = Some i → b !! i = Some null.
Proof.
  unfold TicTacToe.available. intros H.
  apply list_elem_of_lookup_2 in H. apply list_elem_of_omap in H as (o & Ho & Hid).
  simpl in Hid. subst o. apply elem_of_lookup_imap in Ho as (j & v & Heq & Hv).
  unfold strict_eq in Heq. case_bool_decide; [|done]. by simplify_eq.
Qed.

Lemma available_elem (b : Board) i :
  i ∈ TicTacToe.available b ↔ b !! i = Some null.
Proof.
  split.
  - intros Hin. apply list_elem_of_lookup in Hin as [k Hk]. by eapply available_lookup.
  - intros Hnull. unfold TicTacToe.available. apply list_elem_of_omap.
    exists (Some i). split; [|done]. apply elem_of_lookup_imap.
    exists i, null. split; [|done]. unfold strict_eq. by rewrite bool_decide_eq_true_2.
Qed.

Lemma available_nonempty (b : Board) i :
  b !! i = Some null → (0 < length (TicTacToe.available b))%nat.
Proof.
  intros Hnull. apply available_elem in Hnull.
  destruct (TicTacToe.available b); [by apply elem_of_nil in Hnull|simpl; lia].
Qed.

Lemma available_none (b : Board) :
  (∀ i, b !! i ≠ Some null) → TicTacToe.available b = [].
Proof.
  intros Hnone. destruct (TicTacToe.available b) as [|i l] eqn:Heq; [done|].
  exfalso. apply (Hnone i), available_elem. rewrite Heq. left.
Qed.

Lemma random_index_lt k (b : Board) i :
  b !! i = Some null → random_index k (length (TicTacToe.available b)) →
  (k < length (TicTacToe.available b))%nat.
Proof.
  intros Hnull [Hk|[Hn _]]; [done|]. apply available_nonempty in Hnull. lia.
Qed.

Lemma null_cell_dec (b : Board) :
  (∃ i, b !! i = Some null) ∨ (∀ i, b !! i ≠ Some null).
Proof.
  destruct (includes_null b) eqn:Hinc.
  - left. by apply includes_null_spec.
  - right. intros i Hi. assert (includes_null b = true) by (apply includes_null_spec; eauto).
    congruence.
Qed.

(** With no empty cell the hard branch tries nothing and keeps [move] at -1. *)
Lemma selectMove_hard_full (b : Board) k :
  is_board b → (∀ i, b !! i ≠ Some null) →
  TicTacToe.selectMove hard k b = Some (None, b).
Proof.
  intros Hb Hnone.
  destruct (root_loop_ok b Hb 9 0 NegInf None) as (bestVal & move & Hrun & Hinv).
  { done. }
  { simpl. split; [done|]. intros j Hj. lia. }
  destruct move as [i|]; [|done]. simpl in Hinv.
  destruct Hinv as (_ & Hnull & _). by destruct (Hnone i).
Qed.

Lemma available_emptySquares (b : Board) :
  Part001.emptySquares b = TicTacToe.available b.
Proof. reflexivity. Qed.

(** ** Outcome evaluation *)

Lemma js_get_str (b : Board) i m : js_get b i = str m ↔ b !! i = Some (str m).
Proof.
  unfold js_get. split.
  - destruct (b !! i) as [v|]; simpl; [by intros ->|done].
  - by intros ->.
Qed.

Lemma line_mark_spec (squares : Board) l m :
  line_mark squares l = Some m ↔ line_holds squares l m.
Proof.
  destruct l as [[a b] c]. unfold line_mark, line_holds, strict_eq. simpl.
  rewrite <- !js_get_str. split.
  - destruct (js_get squares a) as [| |m0] eqn:Ha; try done.
    destruct (bool_decide _) eqn:H1; simpl; [|done].
    destruct (bool_decide (str m0 = js_get squares c)) eqn:H2; [|done].
    apply bool_decide_eq_true in H1, H2. intros [= ->]. by rewrite <- H1, <- H2.
  - intros (-> & -> & ->). by rewrite !bool_decide_eq_true_2.
Qed.

Lemma first_line_None (squares : Board) lines :
  first_line squares lines = None ↔ no_line squares lines.
Proof.
  unfold no_line. induction lines as [|l rest IH]; simpl.
  - split; [|done]. intros _ l m Hl. by apply elem_of_nil in Hl.
  - destruct (line_mark squares l) as [m|] eqn:Hl.
    + split; [done|]. intros H. exfalso. apply (H l m); [left|].
      by apply line_mark_spec.
    + rewrite IH. split.
      * intros H l' m' Hin. apply elem_of_cons in Hin as [->|Hin]; [|by apply H].
        rewrite <- line_mark_spec. congruence.
      * intros H l' m' Hin. apply H. by right.
Qed.

Lemma first_line_Some (squares : Board) lines m :
  first_line squares lines = Some m ↔
  ∃ pre l post, lines = pre ++ l :: post ∧ line_holds squares l m
                ∧ no_line squares pre.
Proof.
  induction lines as [|l rest IH]; simpl.
  - split; [done|]. intros (pre & l & post & Heq & _). by destruct pre.
  - destruct (line_mark squares l) as [m0|] eqn:Hl.
    + split.
      * intros [= ->]. exists [], l, rest. split; [done|].
        split; [by apply line_mark_spec|]. intros l' m' Hin. by apply elem_of_nil in Hin.
      * intros (pre & l' & post & Heq & Hholds & Hpre).
        destruct pre as [|p pre]; simplify_eq/=.
        -- apply line_mark_spec in Hholds. congruence.
        -- exfalso. apply (Hpre p m0); [left|]. by apply line_mark_spec.
    + rewrite IH. split.
      * intros (pre & l' & post & -> & Hholds & Hpre).
        exists (l :: pre), l', post. split; [done|]. split; [done|].
        intros l0 m0 Hin. apply elem_of_cons in Hin as [->|Hin]; [|by apply Hpre].
        rewrite <- line_mark_spec. congruence.
      * intros (pre & l' & post & Heq & Hholds & Hpre).
        destruct pre as [|p pre]; simplify_eq/=.
        -- apply line_mark_spec in Hholds. congruence.
        -- exists pre, l', post. split; [done|]. split; [done|].
           intros l0 m0 Hin. apply Hpre. by right.
Qed.

Lemma includes_null_full (squares : Board) :
  is_board squares → (includes_null squares = false ↔ full squares).
Proof.
  intros [_ Hall]. rewrite Forall_lookup in Hall. split.
  - intros Hinc i v Hv. destruct v as [| |m]; [| |by eauto].
    + assert (includes_null squares = true) by (apply includes_null_spec; eauto).
      congruence.
    + exfalso. by apply (Hall i undefined).
  - intros Hfull. destruct (includes_null squares) eqn:Hinc; [|done].
    apply includes_null_spec in Hinc as [i Hi].
    destruct (Hfull i null Hi) as [m Hm]. done.
Qed.

Lemma checkWinner_evaluateWinner (squares : Board) :
  Part001.checkWinner squares = TicTacToe.evaluateWinner squares.
Proof.
  unfold Part001.checkWinner, TicTacToe.evaluateWinner.
  rewrite every_not_null_includes. by destruct (includes_null squares), (first_line _ _).
Qed.

(** C2.  On a nine-cell board [evaluateWinner] (and [checkWinner], which
    agrees with it) returns the mark of the first line of [winningLines]
    (rows, then columns, then diagonals) whose three cells hold the same
    mark; when no line holds it returns 'draw' exactly when no cell is
    empty, and [null] otherwise; a board with a line that holds is never
    reported in progress. *)
Theorem C2_evaluateWinner_first_line (squares : Board) :
  is_board squares →
  (∀ m, TicTacToe.evaluateWinner squares = won m ↔
        ∃ pre l post, winningLines = pre ++ l :: post
                      ∧ line_holds squares l m ∧ no_line squares pre)
  ∧ (TicTacToe.evaluateWinner squares = draw ↔
       no_line squares winningLines ∧ full squares)
  ∧ (TicTacToe.evaluateWinner squares = no_winner ↔
       no_line squares winningLines ∧ ¬ full squares)
  ∧ ((∃ l m, l ∈ winningLines ∧ line_holds squares l m) →
       TicTacToe.evaluateWinner squares ≠ no_winner)
  ∧ Part001.checkWinner squares = TicTacToe.evaluateWinner squares
  ∧ winningLines =
      [(0, 1, 2); (3, 4, 5); (6, 7, 8)]%nat ++ [(0, 3, 6); (1, 4, 7); (2, 5, 8)]%nat
      ++ [(0, 4, 8); (2, 4, 6)]%nat.
Proof.
  intros Hb. pose proof (includes_null_full squares Hb) as Hfull.
  unfold TicTacToe.evaluateWinner.
  split; [|split; [|split; [|split; [|split]]]].
  - intros m. rewrite <- first_line_Some.
    destruct (first_line squares winningLines) as [m0|].
    + split; congruence.
    + destruct (includes_null squares); split; congruence.
  - rewrite <- first_line_None, <- Hfull.
    destruct (first_line squares winningLines).
    + split; [congruence|]. intros [? _]. congruence.
    + destruct (includes_null squares); split; try congruence; try tauto;
        try (intros [_ ?]; congruence).
  - rewrite <- first_line_None, <- Hfull.
    destruct (first_line squares winningLines).
    + split; [congruence|]. intros [? _]. congruence.
    + destruct (includes_null squares); split; try congruence; try tauto;
        try (intros _; split; congruence); try (intros [_ ?]; congruence).
  - intros (l & m & Hin & Hholds).
    destruct (first_line squares winningLines) eqn:Hf; [done|].
    apply first_line_None in Hf. exfalso. by apply (Hf l m).
  - apply checkWinner_evaluateWinner.
  - reflexivity.
Qed.

Lemma C2_evaluateWinner_first_line_witness :
  TicTacToe.evaluateWinner [str X; str X; str X; str O; str O; str O; null; null; null]
  = won X.
Proof.
  pose proof (C2_evaluateWinner_first_line
    [str X; str X; str X; str O; str O; str O; null; null; null]) as H.
  destruct H as (Hwon & _).
  { split; [reflexivity|]. repeat constructor; discriminate. }
  apply Hwon. exists [], (0, 1, 2)%nat, (tail winningLines).
  split; [reflexivity|]. split; [by repeat split|].
  intros l m Hin. by apply elem_of_nil in Hin.
Defined.

(** ** The root's choice *)

(** C7.  On a board with an empty cell the hard branch returns an empty
    cell [i] whose value is at least the value of every empty cell and
    strictly greater than the value of every empty cell before it: the
    first cell, in ascending order, of greatest minimax value.  On
    [X,X,_,O,O,_,_,_,_] it returns 5, and on [O,O,_,X,X,_,_,_,_] it
    returns 2. *)
Theorem C7_root_first_greatest (b : Board) (k : nat) :
  (is_board b → (∃ i, b !! i = Some null) →
   ∃ i z, TicTacToe.selectMove hard k b = Some (Some i, b)
     ∧ b !! i = Some null ∧ move_value b i = Some (Fin z)
     ∧ ∀ j, b !! j = Some null →
         ∃ zj, move_value b j = Some (Fin zj) ∧ zj ≤ z ∧ ((j < i)%nat → zj < z))
  ∧ fst <$> TicTacToe.selectMove hard k
              [str X; str X; null; str O; str O; null; null; null; null]
    = Some (Some 5%nat)
  ∧ fst <$> TicTacToe.selectMove hard k
              [str O; str O; null; str X; str X; null; null; null; null]
    = Some (Some 2%nat).
Proof.
  split; [|split; vm_compute; reflexivity].
  intros Hb Hex.
  destruct (selectMove_hard_ok b k Hb Hex) as (i & z & Hsel & _ & Hnull & Hval & Hall).
  exists i, z. done.
Qed.

Lemma C7_root_first_greatest_witness :
  let b := [str X; str X; null; str O; str O; null; null; null; null] in
  ∃ i z, TicTacToe.selectMove hard 0 b = Some (Some i, b)
     ∧ b !! i = Some null ∧ move_value b i = Some (Fin z)
     ∧ ∀ j, b !! j = Some null →
         ∃ zj, move_value b j = Some (Fin zj) ∧ zj ≤ z ∧ ((j < i)%nat → zj < z).
Proof.
  intros b. apply (C7_root_first_greatest b 0).
  - split; [reflexivity|]. repeat constructor; discriminate.
  - exists 2%nat. reflexivity.
Defined.

(** ** Depth shaping *)

Lemma Math_max_not_NaN a b : a ≠ NaN → b ≠ NaN → Math_max a b ≠ NaN.
Proof. by destruct a, b. Qed.

Lemma Math_min_not_NaN a b : a ≠ NaN → b ≠ NaN → Math_min a b ≠ NaN.
Proof. by destruct a, b. Qed.

Lemma minimax_loop_not_NaN rec depth isMax :
  (∀ b d m v b', rec b d m = Some (v, b') → v ≠ NaN) →
  ∀ indices best (b : Board) v b', best ≠ NaN →
    TicTacToe.minimax_loop rec depth isMax indices best b = Some (v, b') → v ≠ NaN.
Proof.
  intros Hrec. induction indices as [|i rest IH]; intros best b v b' Hbest Hrun.
  - simpl in Hrun. congruence.
  - simpl in Hrun. destruct (truthy (js_get b i)); [by eapply IH|].
    destruct (rec _ _ _) as [[value b2]|] eqn:Hcall; [|done].
    apply Hrec in Hcall. eapply IH; [|exact Hrun].
    destruct isMax; [by apply Math_max_not_NaN|by apply Math_min_not_NaN].
Qed.

(** No call of the search, on any array and with any fuel, returns [NaN]:
    the quotient [score / Math.abs(score)] is only ever taken of a nonzero
    score. *)
Lemma minimax_not_NaN fuel (b : Board) depth isMax v b' :
  TicTacToe.minimax fuel b depth isMax = Some (v, b') → v ≠ NaN.
Proof.
  revert b depth isMax v b'. induction fuel as [|fuel IH]; intros b depth isMax v b'; [done|].
  rewrite minimax_S. case_bool_decide as Hscore; simpl negb; cbv iota.
  - destruct (includes_null b); simpl negb; cbv iota; [|by intros [= <- <-]].
    apply minimax_loop_not_NaN; [exact IH|]. by destruct isMax.
  - intros [= <- <-]. destruct (evaluate_cases b) as [H|[H|H]]; [| |done].
    + by destruct (shaped_nonzero _ depth (or_introl H)) as (-> & _).
    + by destruct (shaped_nonzero _ depth (or_intror H)) as (-> & _).
Qed.

(** C9.  A board whose raw score [evaluate b] is not zero is a leaf of the
    search, valued [score - depth * (score / |score|)]: [10 - depth] for a
    line of 'O' and [-10 + depth] for a line of 'X', so that among wins the
    shallower one and among losses the deeper one has the greater value.
    The raw score is 10, -10 or 0, the divisor [|score|] of a nonzero score
    is not zero, and no call of the search ever returns [NaN], the value a
    zero divisor would produce. *)
Theorem C9_depth_shaping (fuel : nat) (b : Board) (depth d1 d2 : Z) (isMax : bool) :
  (TicTacToe.evaluate b ≠ 0 →
     Z.abs (TicTacToe.evaluate b) ≠ 0
     ∧ unit_of (TicTacToe.evaluate b)
       = Fin (TicTacToe.evaluate b / Z.abs (TicTacToe.evaluate b))
     ∧ TicTacToe.minimax (S fuel) b depth isMax
       = Some (Fin (TicTacToe.evaluate b
                    - depth * (TicTacToe.evaluate b / Z.abs (TicTacToe.evaluate b))), b)
     ∧ (TicTacToe.evaluate b = 10 →
        TicTacToe.minimax (S fuel) b depth isMax = Some (Fin (10 - depth), b))
     ∧ (TicTacToe.evaluate b = -10 →
        TicTacToe.minimax (S fuel) b depth isMax = Some (Fin (-10 + depth), b)))
  ∧ (TicTacToe.evaluate b = 10 ∨ TicTacToe.evaluate b = -10 ∨ TicTacToe.evaluate b = 0)
  ∧ (d1 < d2 → num_gt (shaped 10 d1) (shaped 10 d2) = true
               ∧ num_gt (shaped (-10) d2) (shaped (-10) d1) = true)
  ∧ (∀ v b', TicTacToe.minimax fuel b depth isMax = Some (v, b') → v ≠ NaN)
  ∧ unit_of 0 = NaN.
Proof.
  split; [|split; [apply evaluate_cases|split; [|split; [|done]]]].
  - intros Hscore. rewrite minimax_S, bool_decide_eq_false_2 by done. simpl negb. cbv iota.
    assert (TicTacToe.evaluate b = 10 ∨ TicTacToe.evaluate b = -10) as Hcases.
    { destruct (evaluate_cases b) as [?|[?|?]]; tauto. }
    destruct (shaped_nonzero _ depth Hcases) as (Hs & H10 & Hm10).
    split; [lia|]. split.
    { unfold unit_of. rewrite decide_False by lia. done. }
    split; [by rewrite Hs|]. split.
    + intros H. by rewrite (H10 H).
    + intros H. by rewrite (Hm10 H).
  - intros Hlt.
    destruct (shaped_nonzero 10 d1 (or_introl eq_refl)) as (_ & Ha & _).
    destruct (shaped_nonzero 10 d2 (or_introl eq_refl)) as (_ & Hb & _).
    destruct (shaped_nonzero (-10) d1 (or_intror eq_refl)) as (_ & _ & Hc).
    destruct (shaped_nonzero (-10) d2 (or_intror eq_refl)) as (_ & _ & Hd).
    rewrite (Ha eq_refl), (Hb eq_refl), (Hc eq_refl), (Hd eq_refl).
    simpl. split; apply bool_decide_eq_true; lia.
  - intros v b'. apply minimax_not_NaN.
Qed.

Lemma C9_depth_shaping_witness :
  let b := [str O; str O; str O; str X; str X; null; null; null; null] in
  TicTacToe.minimax 1 b 3 false = Some (Fin 7, b).
Proof.
  intros b.
  destruct (C9_depth_shaping 0 b 3 0 1 false) as (Hleaf & _).
  destruct Hleaf as (_ & _ & _ & H10 & _).
  - vm_compute. discriminate.
  - apply H10. reflexivity.
Defined.

(** ** The move handlers *)

Lemma setBoard_same s : TicTacToe.setBoard s (TicTacToe.board s) = s.
Proof. by destruct s. Qed.

Lemma settle_board s newBoard next :
  TicTacToe.board (settle s newBoard next) = newBoard.
Proof.
  unfold settle, TicTacToe.record_outcome. by destruct (TicTacToe.evaluateWinner newBoard).
Qed.

Lemma settle_winner s newBoard next :
  TicTacToe.winner (settle s newBoard next) =
    match TicTacToe.evaluateWinner newBoard with
    | no_winner => TicTacToe.winner s
    | w => w
    end.
Proof.
  unfold settle, TicTacToe.record_outcome. by destruct (TicTacToe.evaluateWinner newBoard).
Qed.

Lemma settle_turn s newBoard next :
  TicTacToe.currentPlayer (settle s newBoard next) =
    match TicTacToe.evaluateWinner newBoard with
    | no_winner => next
    | _ => TicTacToe.currentPlayer s
    end.
Proof.
  unfold settle, TicTacToe.record_outcome. by destruct (TicTacToe.evaluateWinner newBoard).
Qed.

Lemma settle_scores s newBoard next :
  TicTacToe.scores (settle s newBoard next) =
    match TicTacToe.evaluateWinner newBoard with
    | won m => bump (TicTacToe.scores s) m
    | _ => TicTacToe.scores s
    end.
Proof.
  unfold settle, TicTacToe.record_outcome. by destruct (TicTacToe.evaluateWinner newBoard).
Qed.

Lemma settle_config s newBoard next :
  TicTacToe.gameMode (settle s newBoard next) = TicTacToe.gameMode s
  ∧ TicTacToe.difficulty (settle s newBoard next) = TicTacToe.difficulty s.
Proof.
  unfold settle, TicTacToe.record_outcome. by destruct (TicTacToe.evaluateWinner newBoard).
Qed.

Lemma p_settle_board s newBoard next :
  Part001.board (Part001.settle s newBoard next) = newBoard.
Proof. unfold Part001.settle. by destruct (Part001.checkWinner newBoard). Qed.

Lemma p_settle_winner s newBoard next :
  Part001.winner (Part001.settle s newBoard next) =
    match Part001.checkWinner newBoard with
    | no_winner => Part001.winner s
    | w => w
    end.
Proof. unfold Part001.settle. by destruct (Part001.checkWinner newBoard). Qed.

Lemma p_settle_turn s newBoard next :
  Part001.currentPlayer (Part001.settle s newBoard next) =
    match Part001.checkWinner newBoard with
    | no_winner => next
    | _ => Part001.currentPlayer s
    end.
Proof. unfold Part001.settle. by destruct (Part001.checkWinner newBoard). Qed.

Lemma p_settle_scores s newBoard next :
  Part001.scores (Part001.settle s newBoard next) =
    match Part001.checkWinner newBoard with
    | won m => bump (Part001.scores s) m
    | _ => Part001.scores s
    end.
Proof. unfold Part001.settle. by destruct (Part001.checkWinner newBoard). Qed.

Lemma outcome_truthy_false w : outcome_truthy w = false ↔ w = no_winner.
Proof. by destruct w. Qed.

(** The rest of [makeComputerMove] is a whole move on the state it finds;
    the rest of [updateGameState] after its own [setBoard] is too. *)
Lemma resume_makeComputerMove currentBoard move t :
  TicTacToe.resume (TicTacToe.rest_of_makeComputerMove currentBoard move) t
  = settle t (js_set_at currentBoard move (str O)) X.
Proof. reflexivity. Qed.

Lemma resume_updateGameState_at_once s newBoard turn :
  TicTacToe.resume (TicTacToe.rest_of_updateGameState newBoard turn)
    (TicTacToe.setBoard s newBoard)
  = settle s newBoard (other turn).
Proof. reflexivity. Qed.

(** A move on an occupied cell or after the end is dropped before the
    [await]: nothing is set and nothing is left to resume. *)
Lemma updateGameState_rejected s index :
  (∃ m, TicTacToe.board s !! index = Some (str m)) ∨ TicTacToe.winner s ≠ no_winner →
  TicTacToe.updateGameState index s = (s, None).
Proof.
  intros H. unfold TicTacToe.updateGameState.
  destruct H as [H|H].
  - apply truthy_get_str in H. by rewrite H.
  - destruct (TicTacToe.winner s); [done|..]; by rewrite orb_true_r.
Qed.

(** A move on an empty cell of a running game sets the board at once and
    leaves the rest of the handler to be resumed. *)
Lemma updateGameState_accepted s index :
  TicTacToe.board s !! index = Some null → TicTacToe.winner s = no_winner →
  TicTacToe.updateGameState index s =
    (TicTacToe.setBoard s (<[index:=str (TicTacToe.currentPlayer s)]> (TicTacToe.board s)),
     Some (TicTacToe.rest_of_updateGameState
             (<[index:=str (TicTacToe.currentPlayer s)]> (TicTacToe.board s))
             (TicTacToe.currentPlayer s))).
Proof.
  intros Hnull Hw. unfold TicTacToe.updateGameState.
  rewrite (truthy_get_null _ _ Hnull), Hw. simpl.
  by rewrite (js_set_null_cell _ _ _ Hnull).
Qed.

Lemma p_handleClick_rejected s index :
  (∃ m, Part001.board s !! index = Some (str m)) ∨ Part001.winner s ≠ no_winner →
  Part001.handleClick index s = None.
Proof.
  intros H. unfold Part001.handleClick.
  destruct H as [H|H].
  - apply truthy_get_str in H. by rewrite H.
  - destruct (Part001.winner s); [done|..]; by rewrite orb_true_r.
Qed.

Lemma p_handleClick_accepted s index :
  Part001.board s !! index = Some null → Part001.winner s = no_winner →
  Part001.handleClick index s =
    Some (Part001.rest_of_handleClick (Part001.board s) index (Part001.currentPlayer s)).
Proof.
  intros Hnull Hw. unfold Part001.handleClick.
  by rewrite (truthy_get_null _ _ Hnull), Hw.
Qed.

Lemma p_onPress_handleClick s index : Part001.onPress index s = Part001.handleClick index s.
Proof.
  unfold Part001.onPress, Part001.handleClick.
  destruct (truthy _), (outcome_truthy _); done.
Qed.

(** The computer's move on a board with an available cell: the search
    leaves the array as it was, nothing is set before the [await], and the
    rest of the handler holds an empty cell of that board. *)
Lemma makeComputerMove_applied s k :
  is_board (TicTacToe.board s) →
  (k < length (TicTacToe.available (TicTacToe.board s)))%nat →
  ∃ i, TicTacToe.board s !! i = Some null
    ∧ TicTacToe.makeComputerMove k s =
        Some (s, TicTacToe.rest_of_makeComputerMove (TicTacToe.board s) (Some i)).
Proof.
  intros Hb Hk. apply lookup_lt_is_Some_2 in Hk as [i0 Hi0].
  pose proof (available_lookup _ _ _ Hi0) as Hnull0.
  unfold TicTacToe.makeComputerMove. destruct (TicTacToe.difficulty s).
  - exists i0. split; [done|]. simpl. by rewrite Hi0, setBoard_same.
  - destruct (selectMove_hard_ok _ k Hb (ex_intro _ i0 Hnull0))
      as (i & z & Hsel & _ & Hnull & _).
    exists i. split; [done|]. by rewrite Hsel, setBoard_same.
Qed.

(** On a board without an empty cell the computer's move has no cell to
    write: [move] stays -1 or is [undefined]. *)
Lemma makeComputerMove_full s k :
  is_board (TicTacToe.board s) → (∀ i, TicTacToe.board s !! i ≠ Some null) →
  TicTacToe.makeComputerMove k s =
    Some (s, TicTacToe.rest_of_makeComputerMove (TicTacToe.board s) None).
Proof.
  intros Hb Hnone. unfold TicTacToe.makeComputerMove. destruct (TicTacToe.difficulty s).
  - simpl. by rewrite (available_none _ Hnone), setBoard_same.
  - by rewrite (selectMove_hard_full _ k Hb Hnone), setBoard_same.
Qed.

Lemma p_makeComputerMove_applied s k :
  (k < length (Part001.emptySquares (Part001.board s)))%nat →
  ∃ i, Part001.emptySquares (Part001.board s) !! k = Some i
    ∧ Part001.board s !! i = Some null
    ∧ Part001.makeComputerMove k s =
        Part001.settle s (<[i:=str O]> (Part001.board s)) X.
Proof.
  intros Hk. pose proof Hk as Hk'. apply lookup_lt_is_Some_2 in Hk' as [i Hi].
  pose proof (available_lookup _ _ _ Hi) as Hnull.
  exists i. split; [done|]. split; [done|]. unfold Part001.makeComputerMove.
  rewrite bool_decide_eq_true_2 by lia. rewrite Hi. simpl.
  by rewrite (js_set_null_cell _ _ _ Hnull).
Qed.

(** *** The handlers run through *)

Lemma q_updateGameState_rejected s index :
  (∃ m, TicTacToe.board s !! index = Some (str m)) ∨ TicTacToe.winner s ≠ no_winner →
  q_updateGameState index s = s.
Proof. intros H. unfold q_updateGameState. by rewrite (updateGameState_rejected _ _ H). Qed.

Lemma q_updateGameState_applied s index :
  TicTacToe.board s !! index = Some null → TicTacToe.winner s = no_winner →
  q_updateGameState index s =
    settle s (<[index:=str (TicTacToe.currentPlayer s)]> (TicTacToe.board s))
      (other (TicTacToe.currentPlayer s)).
Proof.
  intros Hnull Hw. unfold q_updateGameState.
  by rewrite (updateGameState_accepted _ _ Hnull Hw).
Qed.

Lemma q_handleClick_eq s index :
  q_handleClick index s =
    if bool_decide (TicTacToe.gameMode s = multi)
       || bool_decide (TicTacToe.currentPlayer s = X)
    then q_updateGameState index s else s.
Proof.
  unfold q_handleClick, q_updateGameState, TicTacToe.handleClick.
  by destruct (_ || _).
Qed.

Lemma pq_handleClick_rejected s index :
  (∃ m, Part001.board s !! index = Some (str m)) ∨ Part001.winner s ≠ no_winner →
  pq_handleClick index s = s.
Proof. intros H. unfold pq_handleClick. by rewrite (p_handleClick_rejected _ _ H). Qed.

Lemma pq_handleClick_applied s index :
  Part001.board s !! index = Some null → Part001.winner s = no_winner →
  pq_handleClick index s =
    Part001.settle s (<[index:=str (Part001.currentPlayer s)]> (Part001.board s))
      (other (Part001.currentPlayer s)).
Proof.
  intros Hnull Hw. unfold pq_handleClick.
  rewrite (p_handleClick_accepted _ _ Hnull Hw). simpl.
  by rewrite (js_set_null_cell _ _ _ Hnull).
Qed.

Lemma pq_onPress_handleClick s index : pq_onPress index s = pq_handleClick index s.
Proof. unfold pq_onPress, pq_handleClick. by rewrite p_onPress_handleClick. Qed.

(** On a board, a press run through either is dropped or marks an empty
    cell. *)
Lemma q_updateGameState_cases s index :
  is_board (TicTacToe.board s) → (index < 9)%nat →
  q_updateGameState index s = s
  ∨ (TicTacToe.board s !! index = Some null ∧ TicTacToe.winner s = no_winner
     ∧ q_updateGameState index s =
         settle s (<[index:=str (TicTacToe.currentPlayer s)]> (TicTacToe.board s))
           (other (TicTacToe.currentPlayer s))).
Proof.
  intros Hb Hi. destruct (truthy (js_get (TicTacToe.board s) index)) eqn:Ht.
  - left. apply q_updateGameState_rejected. left. by apply truthy_get_str.
  - pose proof (is_board_falsy _ _ Hb Hi Ht) as Hnull.
    destruct (decide (TicTacToe.winner s = no_winner)) as [Hw|Hw].
    + right. split; [done|]. split; [done|]. by apply q_updateGameState_applied.
    + left. apply q_updateGameState_rejected. by right.
Qed.

Lemma pq_handleClick_cases s index :
  is_board (Part001.board s) → (index < 9)%nat →
  pq_handleClick index s = s
  ∨ (Part001.board s !! index = Some null ∧ Part001.winner s = no_winner
     ∧ pq_handleClick index s =
         Part001.settle s (<[index:=str (Part001.currentPlayer s)]> (Part001.board s))
           (other (Part001.currentPlayer s))).
Proof.
  intros Hb Hi. destruct (truthy (js_get (Part001.board s) index)) eqn:Ht.
  - left. apply pq_handleClick_rejected. left. by apply truthy_get_str.
  - pose proof (is_board_falsy _ _ Hb Hi Ht) as Hnull.
    destruct (decide (Part001.winner s = no_winner)) as [Hw|Hw].
    + right. split; [done|]. split; [done|]. by apply pq_handleClick_applied.
    + left. apply pq_handleClick_rejected. by right.
Qed.

Lemma q_makeComputerMove_applied s k :
  is_board (TicTacToe.board s) →
  (k < length (TicTacToe.available (TicTacToe.board s)))%nat →
  ∃ i, TicTacToe.board s !! i = Some null
    ∧ q_makeComputerMove k s = Some (settle s (<[i:=str O]> (TicTacToe.board s)) X).
Proof.
  intros Hb Hk. destruct (makeComputerMove_applied s k Hb Hk) as (i & Hnull & Heq).
  exists i. split; [done|]. unfold q_makeComputerMove. rewrite Heq.
  rewrite resume_makeComputerMove. simpl. by rewrite (js_set_null_cell _ _ _ Hnull).
Qed.

Lemma q_makeComputerMove_full s k :
  is_board (TicTacToe.board s) → (∀ i, TicTacToe.board s !! i ≠ Some null) →
  q_makeComputerMove k s = Some (settle s (TicTacToe.board s) X).
Proof.
  intros Hb Hnone. unfold q_makeComputerMove.
  by rewrite (makeComputerMove_full s k Hb Hnone).
Qed.







(** ** Rejected moves *)



(** ** Two presses before the sound of the first is dealt with *)

Lemma step_press_eq s pending index s' c pending' :
  (index < length (TicTacToe.board s))%nat →
  TicTacToe.handleClick index s = (s', c) → pending' = pending ++ option_list c →
  TicTacToe.step (s, pending) (TicTacToe.Press index) (s', pending').
Proof. intros Hi Hh ->. by apply TicTacToe.step_press. Qed.

Lemma step_timer_eq s pending k s' c pending' :
  TicTacToe.computerMoveDue s = true →
  random_index k (length (TicTacToe.available (TicTacToe.board s))) →
  TicTacToe.makeComputerMove k s = Some (s', c) → pending' = pending ++ [c] →
  TicTacToe.step (s, pending) (TicTacToe.TimerFires k) (s', pending').
Proof. intros Hd Hk Hm ->. by apply TicTacToe.step_timer. Qed.

Lemma step_sound_eq s pending j c s' pending' :
  pending !! j = Some c → s' = TicTacToe.resume c s → pending' = delete j pending →
  TicTacToe.step (s, pending) (TicTacToe.SoundDone j) (s', pending').
Proof. intros Hj -> ->. by apply TicTacToe.step_sound. Qed.

Lemma p_step_press_eq s pending index pending' :
  (index < length (Part001.board s))%nat →
  pending' = pending ++ option_list (Part001.onPress index s) →
  Part001.step (s, pending) (Part001.Press index) (s, pending').
Proof. intros Hi ->. by apply Part001.step_press. Qed.

Lemma p_step_sound_eq s pending j c s' pending' :
  pending !! j = Some c → s' = Part001.resume c s → pending' = delete j pending →
  Part001.step (s, pending) (Part001.SoundDone j) (s', pending').
Proof. intros Hj -> ->. by apply Part001.step_sound. Qed.

Ltac fire_press :=
  eapply TicTacToe.run_cons;
  [eapply step_press_eq; [simpl; lia | vm_compute; reflexivity | vm_compute; reflexivity] |].

Ltac fire_timer :=
  eapply TicTacToe.run_cons;
  [eapply step_timer_eq;
   [vm_compute; reflexivity | left; vm_compute; lia | vm_compute; reflexivity
   | vm_compute; reflexivity] |].

Ltac fire_sound :=
  eapply TicTacToe.run_cons;
  [eapply step_sound_eq;
   [vm_compute; reflexivity | vm_compute; reflexivity | vm_compute; reflexivity] |].

Ltac fire_button :=
  eapply TicTacToe.run_cons;
  [first [apply TicTacToe.step_reset | apply TicTacToe.step_mode
         | apply TicTacToe.step_difficulty] |].

Ltac p_fire_press :=
  eapply Part001.run_cons;
  [eapply p_step_press_eq; [simpl; lia | vm_compute; reflexivity] |].

Ltac p_fire_sound :=
  eapply Part001.run_cons;
  [eapply p_step_sound_eq;
   [vm_compute; reflexivity | vm_compute; reflexivity | vm_compute; reflexivity] |].

(** C4 does not hold when two presses overlap.  In a freshly mounted component (single
    player, 'X' to move) squares 0 and 1 are pressed before the sound of the
    first press is dealt with.  The first press is applied and leaves the
    game in progress, but the turn is still 'X' when the second press
    arrives, so the second press is applied for 'X' too; when both handlers
    have been resumed the board holds two 'X' and no 'O', and the turn has
    passed to 'O' once. *)
Theorem C4_two_moves_one_flip :
  let s1 := (TicTacToe.handleClick 0 TicTacToe.initial).1 in
  let s2 := (TicTacToe.handleClick 1 s1).1 in
  TicTacToe.board s1 = [str X; null; null; null; null; null; null; null; null]
  ∧ TicTacToe.winner s1 = no_winner ∧ TicTacToe.currentPlayer s1 = X
  ∧ TicTacToe.board s2 = [str X; str X; null; null; null; null; null; null; null]
  ∧ TicTacToe.winner s2 = no_winner ∧ TicTacToe.currentPlayer s2 = X
  ∧ TicTacToe.run (TicTacToe.initial, [])
      [TicTacToe.Press 0; TicTacToe.Press 1; TicTacToe.SoundDone 0; TicTacToe.SoundDone 0]
      ({| TicTacToe.board := [str X; str X; null; null; null; null; null; null; null];
          TicTacToe.currentPlayer := O; TicTacToe.winner := no_winner;
          TicTacToe.gameMode := single; TicTacToe.difficulty := hard;
          TicTacToe.scores := {| score_X := 0; score_O := 0 |} |}, []).
Proof.
  do 6 (split; [reflexivity|]).
  fire_press. fire_press. fire_sound. fire_sound. apply TicTacToe.run_nil.
Qed.

(** C5 does not hold when two presses overlap.  In two-player mode 'X' holds cells 0 and 1
    and 'O' cells 3 and 4; 'X' presses 2, which completes a line, and then 5
    before the sound of that press is dealt with.  The outcome is still
    [null] when the second press arrives, so it is applied, and both
    handlers, once resumed, find a line of 'X' on their board and add one to
    the tally of 'X': one game, two points. *)
Theorem C5_one_win_two_points :
  ∃ s, TicTacToe.run (TicTacToe.initial, [])
         [TicTacToe.PressMode;
          TicTacToe.Press 0; TicTacToe.SoundDone 0; TicTacToe.Press 3; TicTacToe.SoundDone 0;
          TicTacToe.Press 1; TicTacToe.SoundDone 0; TicTacToe.Press 4; TicTacToe.SoundDone 0;
          TicTacToe.Press 2; TicTacToe.Press 5; TicTacToe.SoundDone 0; TicTacToe.SoundDone 0]
         (s, [])
       ∧ TicTacToe.winner s = won X
       ∧ TicTacToe.scores s = {| score_X := 2; score_O := 0 |}.
Proof.
  eexists. split; [|split].
  - fire_button. do 4 (fire_press; fire_sound).
    fire_press. fire_press. fire_sound. fire_sound. apply TicTacToe.run_nil.
  - reflexivity.
  - reflexivity.
Qed.

(** C6 does not hold in part_001 when two presses overlap.  In a fresh
    game, squares 0 and 1 are pressed before the sound of the first press
    is dealt with.  Both
    handlers pass the guard on the empty board and both copy that board when
    they are resumed: the first sets the board with 'X' on 0, the second
    sets it with 'X' on 1 only, so the mark on cell 0 is cleared with no
    reset in between. *)
Theorem C6_second_press_clears_the_first :
  ∃ s3 c2 s4,
    Part001.run (Part001.initial, [])
      [Part001.Press 0; Part001.Press 1; Part001.SoundDone 0] (s3, [c2])
    ∧ Part001.board s3 = [str X; null; null; null; null; null; null; null; null]
    ∧ Part001.step (s3, [c2]) (Part001.SoundDone 0) (s4, [])
    ∧ Part001.board s4 = [null; str X; null; null; null; null; null; null; null].
Proof.
  eexists _, _, _. split; [|split; [|split]].
  - p_fire_press. p_fire_press. p_fire_sound. apply Part001.run_nil.
  - reflexivity.
  - eapply p_step_sound_eq; [reflexivity|reflexivity|reflexivity].
  - reflexivity.
Qed.

(** ** Choosing the computer's move *)

Lemma random_index_nonempty k (n : nat) : (0 < n)%nat → random_index k n → (k < n)%nat.
Proof. intros Hn [H|[H _]]; lia. Qed.

(** C8.  On a board with an empty cell and no outcome yet, the move-choosing
    part of [makeComputerMove] returns the index of an empty cell, at most
    8: in the hard branch, and for every value the random draw can take in
    the easy branch and in part_001, where the list of candidates is never
    empty.  The array comes back from the search exactly as it was passed
    in: up to its [await] the handler leaves the state as it is, and the
    rest of the handler (in part_001, the handler itself) sets the board to
    that array with 'O' written at the chosen index. *)
Theorem C8_selectMove_empty_cell_and_restore (b : Board) (k : nat) :
  is_board b → (∃ i, b !! i = Some null) → TicTacToe.evaluateWinner b = no_winner →
  (∃ i, TicTacToe.selectMove hard k b = Some (Some i, b)
        ∧ (i ≤ 8)%nat ∧ b !! i = Some null
        ∧ ∀ s, TicTacToe.board s = b → TicTacToe.difficulty s = hard →
            TicTacToe.makeComputerMove k s
            = Some (s, TicTacToe.rest_of_makeComputerMove b (Some i))
            ∧ ∀ t, TicTacToe.board
                     (TicTacToe.resume (TicTacToe.rest_of_makeComputerMove b (Some i)) t)
                   = <[i:=str O]> b)
  ∧ (random_index k (length (TicTacToe.available b)) →
     ∃ i, TicTacToe.selectMove easy k b = Some (Some i, b)
        ∧ (i ≤ 8)%nat ∧ b !! i = Some null
        ∧ ∀ s, TicTacToe.board s = b → TicTacToe.difficulty s = easy →
            TicTacToe.makeComputerMove k s
            = Some (s, TicTacToe.rest_of_makeComputerMove b (Some i))
            ∧ ∀ t, TicTacToe.board
                     (TicTacToe.resume (TicTacToe.rest_of_makeComputerMove b (Some i)) t)
                   = <[i:=str O]> b)
  ∧ (random_index k (length (Part001.emptySquares b)) →
     ∃ i, Part001.emptySquares b !! k = Some i
        ∧ (i ≤ 8)%nat ∧ b !! i = Some null
        ∧ ∀ p, Part001.board p = b →
            Part001.board (Part001.makeComputerMove k p) = <[i:=str O]> b)
  ∧ (0 < length (TicTacToe.available b))%nat
  ∧ (0 < length (Part001.emptySquares b))%nat.
Proof.
  intros Hb Hex _. pose proof Hb as [Hlen _].
  assert (∀ i, b !! i = Some null → (i ≤ 8)%nat) as Hrange.
  { intros i Hi. apply lookup_lt_Some in Hi. lia. }
  assert (0 < length (TicTacToe.available b))%nat as Hpos.
  { destruct Hex as [i Hi]. by eapply available_nonempty. }
  assert (∀ i t, b !! i = Some null →
            TicTacToe.board
              (TicTacToe.resume (TicTacToe.rest_of_makeComputerMove b (Some i)) t)
            = <[i:=str O]> b) as Hresume.
  { intros i t Hnull. rewrite resume_makeComputerMove, settle_board. simpl.
    by apply js_set_null_cell. }
  split; [|split; [|split; [|split; [done|done]]]].
  - destruct (selectMove_hard_ok b k Hb Hex) as (i & z & Hsel & _ & Hnull & _).
    exists i. split; [done|]. split; [by apply Hrange|]. split; [done|].
    intros s Hs Hd. split; [|intros t; by apply Hresume].
    unfold TicTacToe.makeComputerMove. rewrite Hd, Hs, Hsel, <- Hs. by rewrite setBoard_same.
  - intros Hk. apply (random_index_nonempty _ _ Hpos) in Hk.
    apply lookup_lt_is_Some_2 in Hk as [i Hi].
    pose proof (available_lookup _ _ _ Hi) as Hnull.
    exists i. simpl. rewrite Hi. split; [done|]. split; [by apply Hrange|].
    split; [done|]. intros s Hs Hd. split; [|intros t; by apply Hresume].
    unfold TicTacToe.makeComputerMove. rewrite Hd, Hs. simpl. rewrite Hi, <- Hs.
    by rewrite setBoard_same.
  - intros Hk. apply (random_index_nonempty _ _ Hpos) in Hk.
    pose proof Hk as Hk'. apply lookup_lt_is_Some_2 in Hk' as [i Hi].
    pose proof (available_lookup _ _ _ Hi) as Hnull.
    exists i. split; [done|]. split; [by apply Hrange|]. split; [done|].
    intros p Hp. subst b.
    destruct (p_makeComputerMove_applied p k Hk) as (i' & Hi' & _ & ->).
    rewrite p_settle_board.
    assert (i' = i) as -> by (unfold Part001.emptySquares, TicTacToe.available in *; congruence).
    done.
Qed.

Lemma C8_selectMove_empty_cell_and_restore_witness :
  let b := [str X; str O; null; null; str X; null; null; null; null] in
  ∃ i, TicTacToe.selectMove hard 0 b = Some (Some i, b) ∧ b !! i = Some null.
Proof.
  intros b.
  destruct (C8_selectMove_empty_cell_and_restore b 0) as ((i & Hsel & _ & Hnull & _) & _).
  - split; [reflexivity|]. repeat constructor; discriminate.
  - exists 2%nat. reflexivity.
  - reflexivity.
  - exists i. split; assumption.
Defined.

(** ** Who plays which mark *)

Lemma computerMoveDue_spec s :
  TicTacToe.computerMoveDue s = true ↔
  TicTacToe.gameMode s = single ∧ TicTacToe.currentPlayer s = O
  ∧ TicTacToe.winner s = no_winner.
Proof.
  unfold TicTacToe.computerMoveDue.
  rewrite !andb_true_iff, !bool_decide_eq_true, negb_true_iff, outcome_truthy_false.
  tauto.
Qed.

Lemma p_computerMoveDue_spec p :
  Part001.computerMoveDue p = true ↔
  Part001.gameMode p = single ∧ Part001.currentPlayer p = O
  ∧ Part001.winner p = no_winner.
Proof.
  unfold Part001.computerMoveDue.
  rewrite !andb_true_iff, !bool_decide_eq_true, negb_true_iff, outcome_truthy_false.
  tauto.
Qed.



(** ** The hard computer never loses a game of alternating moves *)

(** The check succeeds on the empty board: five rounds end every game. *)
Lemma safeX_initialBoard : safeX 5 initialBoard = true.
Proof. vm_compute. reflexivity. Qed.

Lemma safeX_S n (b : Board) :
  safeX (S n) b =
    forallb (fun i => if truthy (js_get b i) then true
                      else afterX (safeX n) (js_set b i (str X))) (seq 0 9).
Proof. reflexivity. Qed.

Lemma evaluateWinner_no_line (b : Board) :
  TicTacToe.evaluateWinner b = no_winner →
  no_line b winningLines ∧ ∃ i, b !! i = Some null.
Proof.
  unfold TicTacToe.evaluateWinner. intros H.
  destruct (first_line b winningLines) eqn:Hf; [done|].
  split; [by apply first_line_None|].
  destruct (includes_null b) eqn:Hinc; [|done]. by apply includes_null_spec.
Qed.












(** * Further properties of the components *)

(** ** The list of available cells *)

Lemma available_avail_from (b : Board) : TicTacToe.available b = avail_from 0 b.
Proof. reflexivity. Qed.

Lemma avail_from_cons n v (b : Board) :
  avail_from n (v :: b)
  = (if strict_eq v null then [n] else []) ++ avail_from (S n) b.
Proof.
  unfold avail_from. rewrite imap_cons. simpl.
  replace (n + 0)%nat with n by lia.
  assert (imap ((fun i v0 => if strict_eq v0 null then Some (n + i)%nat else None) ∘ S) b
          = imap (fun i v0 => if strict_eq v0 null then Some (S n + i)%nat else None) b) as ->.
  { apply imap_ext. intros i x _. simpl. destruct (strict_eq x null); [|done].
    f_equal. lia. }
  by destruct (strict_eq v null).
Qed.

Lemma avail_from_ge n (b : Board) i : i ∈ avail_from n b → (n ≤ i)%nat.
Proof.
  revert n. induction b as [|v b IH]; intros n Hin.
  - by apply elem_of_nil in Hin.
  - rewrite avail_from_cons in Hin. apply elem_of_app in Hin as [Hin|Hin].
    + destruct (strict_eq v null); [|by apply elem_of_nil in Hin].
      apply list_elem_of_singleton in Hin. lia.
    + apply IH in Hin. lia.
Qed.

Lemma avail_from_length n (b : Board) : length (avail_from n b) = count_null b.
Proof.
  revert n. induction b as [|v b IH]; intros n; [done|].
  rewrite avail_from_cons, length_app, IH. unfold count_null. rewrite filter_cons.
  unfold strict_eq. case_bool_decide; case_decide; simpl; try done; congruence.
Qed.

Lemma avail_from_ascending n (b : Board) k1 k2 i1 i2 :
  (k1 < k2)%nat → avail_from n b !! k1 = Some i1 → avail_from n b !! k2 = Some i2 →
  (i1 < i2)%nat.
Proof.
  revert n k1 k2. induction b as [|v b IH]; intros n k1 k2 Hlt H1 H2; [done|].
  rewrite avail_from_cons in H1, H2. destruct (strict_eq v null); simpl in *.
  - destruct k2 as [|k2]; [lia|]. simpl in H2. destruct k1 as [|k1]; simpl in H1.
    + injection H1 as <-. apply list_elem_of_lookup_2, avail_from_ge in H2. lia.
    + apply (IH (S n) k1 k2); [lia|done|done].
  - by apply (IH (S n) k1 k2).
Qed.

(** X6.  The list of candidates of the random player ([available], and
    [emptySquares] of part_001, which is the same pipeline) holds exactly
    the indices of the [null] cells, in strictly ascending order, so each
    empty cell appears once: its length is the number of empty cells, and
    every empty cell is picked by exactly one value of the draw. *)
Theorem X6_available_lists_empty_cells (b : Board) :
  (∀ i, i ∈ TicTacToe.available b ↔ b !! i = Some null)
  ∧ length (TicTacToe.available b) = count_null b
  ∧ (∀ k1 k2 i1 i2, (k1 < k2)%nat →
       TicTacToe.available b !! k1 = Some i1 → TicTacToe.available b !! k2 = Some i2 →
       (i1 < i2)%nat)
  ∧ (∀ i, b !! i = Some null →
       ∃ k, TicTacToe.available b !! k = Some i
            ∧ ∀ k', TicTacToe.available b !! k' = Some i → k' = k)
  ∧ Part001.emptySquares b = TicTacToe.available b.
Proof.
  assert (∀ k1 k2 i1 i2, (k1 < k2)%nat →
       TicTacToe.available b !! k1 = Some i1 → TicTacToe.available b !! k2 = Some i2 →
       (i1 < i2)%nat) as Hasc.
  { intros k1 k2 i1 i2. rewrite available_avail_from. apply avail_from_ascending. }
  split; [apply available_elem|]. split; [exact (avail_from_length 0 b)|].
  split; [exact Hasc|]. split; [|reflexivity].
  intros i Hnull. apply available_elem, list_elem_of_lookup in Hnull as [k Hk].
  exists k. split; [done|]. intros k' Hk'.
  destruct (Nat.lt_trichotomy k' k) as [Hlt|[->|Hlt]]; [|done|].
  - pose proof (Hasc _ _ _ _ Hlt Hk' Hk). lia.
  - pose proof (Hasc _ _ _ _ Hlt Hk Hk'). lia.
Qed.

(** ** The values of the search *)

Lemma evaluate_evaluateWinner (b : Board) :
  (TicTacToe.evaluate b = 10 ↔ TicTacToe.evaluateWinner b = won O)
  ∧ (TicTacToe.evaluate b = -10 ↔ TicTacToe.evaluateWinner b = won X)
  ∧ (TicTacToe.evaluate b = 0 ↔ first_line b winningLines = None).
Proof.
  unfold TicTacToe.evaluate, TicTacToe.evaluateWinner.
  destruct (first_line b winningLines) as [[|]|]; [| |destruct (includes_null b)];
    repeat split; intros; try done; try lia.
Qed.

Section loop_range.
Variable rec : Board → Z → bool → option (num * Board).
Variables (depth lo hi : Z) (isMax : bool) (b : Board).
Hypothesis Hb : is_board b.
Hypothesis Hrec : ∀ b' m, is_board b' → (count_null b' < count_null b)%nat →
  ∃ z, rec b' (depth + 1) m = Some (Fin z, b') ∧ lo ≤ z ≤ hi.

(** When every call from the loop returns a value between [lo] and [hi],
    so does the loop, as soon as one cell was tried. *)
Lemma minimax_loop_range indices best :
  Forall (fun i => (i < 9)%nat) indices →
  best = (if isMax then NegInf else PosInf) ∨ (∃ z, best = Fin z ∧ lo ≤ z ≤ hi) →
  ∃ best', TicTacToe.minimax_loop rec depth isMax indices best b = Some (best', b)
    ∧ ((∃ z, best' = Fin z ∧ lo ≤ z ≤ hi)
       ∨ (best' = best ∧ ∀ i, i ∈ indices → b !! i ≠ Some null)).
Proof using Hb Hrec.
  revert best. induction indices as [|i rest IH]; intros best Hidx Hbest.
  - exists best. split; [done|]. right. split; [done|]. intros i Hi.
    by apply elem_of_nil in Hi.
  - apply Forall_cons in Hidx as [Hi Hrest]. simpl.
    destruct (truthy (js_get b i)) eqn:Ht.
    + destruct (IH best Hrest Hbest) as (best' & Hrun & Hres).
      exists best'. split; [done|]. destruct Hres as [?|[-> Hnone]]; [by left|].
      right. split; [done|]. intros j Hj. apply elem_of_cons in Hj as [->|Hj].
      * apply truthy_get_str in Ht as [m Hm]. congruence.
      * by apply Hnone.
    + pose proof (is_board_falsy b i Hb Hi Ht) as Hnull.
      rewrite (js_set_null_cell _ _ _ Hnull).
      set (mk := if isMax then O else X).
      destruct (Hrec (<[i:=str mk]> b) (negb isMax)) as (z & Hz & Hrange).
      { by apply is_board_insert. }
      { by apply count_null_insert. }
      rewrite Hz. rewrite js_set_in_range.
      2:{ rewrite length_insert. by eapply lookup_lt_Some. }
      rewrite (insert_restore _ _ _ Hnull).
      set (best1 := if isMax then Math_max best (Fin z) else Math_min best (Fin z)).
      assert (∃ z1, best1 = Fin z1 ∧ lo ≤ z1 ≤ hi) as Hfin.
      { subst best1. destruct isMax; destruct Hbest as [->|(z0 & -> & Hz0)]; simpl;
          eexists; (split; [reflexivity|lia]). }
      destruct (IH best1 Hrest (or_intror Hfin)) as (best' & Hrun & Hres).
      exists best'. split; [done|]. left.
      destruct Hres as [?|[-> _]]; done.
Qed.
End loop_range.

(** A call at depth [depth] on a board with at most [8 - depth] empty cells
    (the root calls at depth 0 on a board that holds at least one mark, and
    every level adds a mark): a line of 'O' is worth [10 - depth], a line of
    'X' is worth [-10 + depth], and any other board lies strictly between
    the two. *)
Lemma minimax_range fuel (b : Board) depth isMax :
  is_board b → 0 ≤ depth → depth + Z.of_nat (count_null b) ≤ 8 →
  (count_null b < fuel)%nat →
  ∃ z, TicTacToe.minimax fuel b depth isMax = Some (Fin z, b)
    ∧ (TicTacToe.evaluate b = 10 → z = 10 - depth)
    ∧ (TicTacToe.evaluate b = -10 → z = -10 + depth)
    ∧ (TicTacToe.evaluate b = 0 → depth - 9 ≤ z ≤ 9 - depth).
Proof.
  revert b depth isMax.
  induction fuel as [|fuel IH]; intros b depth isMax Hb Hd Hcount Hfuel; [lia|].
  rewrite minimax_S. case_bool_decide as Hscore; simpl negb; cbv iota.
  - destruct (includes_null b) eqn:Hinc; simpl negb; cbv iota.
    2:{ exists 0. split; [done|]. repeat split; intros; lia. }
    destruct (minimax_loop_range (TicTacToe.minimax fuel) depth (depth - 9) (9 - depth)
                isMax b Hb) with
      (indices := seq 0 9) (best := if isMax then NegInf else PosInf)
      as (best' & Hrun & Hres).
    + intros b' m Hb' Hlt.
      destruct (IH b' (depth + 1) m Hb') as (z & Hz & H10 & Hm10 & H0); [lia|lia|lia|].
      exists z. split; [done|].
      destruct (evaluate_cases b') as [H|[H|H]];
        [specialize (H10 H)|specialize (Hm10 H)|specialize (H0 H)]; lia.
    + apply Forall_forall. intros i Hi. apply elem_of_seq in Hi. lia.
    + by left.
    + rewrite Hrun. destruct Hres as [(z & -> & Hz)|[_ Hnone]].
      * exists z. split; [done|]. repeat split; intros; lia.
      * apply includes_null_spec in Hinc as [i Hi]. exfalso. apply (Hnone i); [|done].
        apply elem_of_seq. pose proof (lookup_lt_Some _ _ _ Hi). destruct Hb. lia.
  - destruct (evaluate_cases b) as [H|[H|H]]; [| |done].
    + destruct (shaped_nonzero _ depth (or_introl H)) as (_ & Hs & _).
      rewrite (Hs H). exists (10 - depth). split; [done|]. repeat split; intros; lia.
    + destruct (shaped_nonzero _ depth (or_intror H)) as (_ & _ & Hs).
      rewrite (Hs H). exists (-10 + depth). split; [done|]. repeat split; intros; lia.
Qed.

Lemma move_value_range (b : Board) (j : nat) :
  is_board b → b !! j = Some null →
  ∃ z, move_value b j = Some (Fin z)
    ∧ -10 ≤ z ≤ 10
    ∧ (z = 10 ↔ TicTacToe.evaluateWinner (<[j:=str O]> b) = won O)
    ∧ (z = -10 ↔ TicTacToe.evaluateWinner (<[j:=str O]> b) = won X).
Proof.
  intros Hb Hnull.
  assert (is_board (<[j:=str O]> b)) as Hb' by (by apply is_board_insert).
  pose proof (count_null_insert b j O Hnull) as Hlt.
  pose proof (count_null_le_length b) as Hle. destruct Hb as [Hlen Hall].
  destruct (minimax_range TicTacToe.search_fuel (<[j:=str O]> b) 0 false Hb')
    as (z & Hz & H10 & Hm10 & H0); [lia|lia|by apply search_fuel_enough|].
  exists z. split.
  { unfold move_value. by rewrite (js_set_null_cell _ _ _ Hnull), Hz. }
  destruct (evaluate_evaluateWinner (<[j:=str O]> b)) as (E10 & Em10 & _).
  rewrite <- E10, <- Em10.
  destruct (evaluate_cases (<[j:=str O]> b)) as [H|[H|H]];
    [specialize (H10 H)|specialize (Hm10 H)|specialize (H0 H)];
    rewrite H; repeat split; intros; lia.
Qed.

(** X7.  The value the root gets for trying an empty cell [j] is an
    integer between -10 and 10; it is 10 exactly when 'O' on [j] completes
    a line, and -10 exactly when the board with 'O' on [j] already shows a
    line of 'X'; every other move is worth between -9 and 9. *)
Theorem X7_move_value_range (b : Board) (j : nat) :
  is_board b → b !! j = Some null →
  ∃ z, move_value b j = Some (Fin z)
    ∧ -10 ≤ z ≤ 10
    ∧ (z = 10 ↔ TicTacToe.evaluateWinner (<[j:=str O]> b) = won O)
    ∧ (z = -10 ↔ TicTacToe.evaluateWinner (<[j:=str O]> b) = won X).
Proof. apply move_value_range. Qed.

Lemma X7_move_value_range_witness :
  let b := [str O; str O; null; str X; str X; null; null; null; null] in
  ∃ z, move_value b 2 = Some (Fin z)
    ∧ -10 ≤ z ≤ 10
    ∧ (z = 10 ↔ TicTacToe.evaluateWinner (<[2%nat:=str O]> b) = won O)
    ∧ (z = -10 ↔ TicTacToe.evaluateWinner (<[2%nat:=str O]> b) = won X).
Proof.
  intros b. apply (X7_move_value_range b 2).
  - split; [reflexivity|]. repeat constructor; discriminate.
  - reflexivity.
Defined.

(** ** The handlers run through *)

Lemma q_updateGameState_eq index s :
  q_updateGameState index s =
    if truthy (js_get (TicTacToe.board s) index) || outcome_truthy (TicTacToe.winner s)
    then s
    else settle s (js_set (TicTacToe.board s) index (str (TicTacToe.currentPlayer s)))
           (other (TicTacToe.currentPlayer s)).
Proof. unfold q_updateGameState, TicTacToe.updateGameState. by destruct (_ || _). Qed.

Lemma q_makeComputerMove_eq k s :
  q_makeComputerMove k s =
    match TicTacToe.selectMove (TicTacToe.difficulty s) k (TicTacToe.board s) with
    | None => None
    | Some (move, currentBoard) => Some (settle s (js_set_at currentBoard move (str O)) X)
    end.
Proof.
  unfold q_makeComputerMove, TicTacToe.makeComputerMove.
  by destruct (TicTacToe.selectMove _ _ _) as [[move cb]|].
Qed.

Lemma pq_handleClick_eq index s :
  pq_handleClick index s =
    if truthy (js_get (Part001.board s) index) || outcome_truthy (Part001.winner s)
    then s
    else Part001.settle s
           (js_set (Part001.board s) index (str (Part001.currentPlayer s)))
           (other (Part001.currentPlayer s)).
Proof. unfold pq_handleClick, Part001.handleClick. by destruct (_ || _). Qed.

Lemma quiet_press_eq s index s' :
  (index < length (TicTacToe.board s))%nat → s' = q_handleClick index s →
  quiet_step s (TicTacToe.Press index) s'.
Proof. intros Hi ->. by apply quiet_press. Qed.

Ltac qfire_press :=
  eapply quiet_cons;
  [eapply quiet_press_eq; [simpl; lia | vm_compute; reflexivity] |].

Ltac qfire_timer :=
  eapply quiet_cons;
  [eapply quiet_timer;
   [vm_compute; reflexivity | left; vm_compute; lia | vm_compute; reflexivity] |].

(** ** Turns, when every handler is run through *)

Lemma quiet_reset_shape s e s' :
  quiet_step s e s' → ¬ is_move e →
  ∃ s0, s' = TicTacToe.resetGame s0 ∧ TicTacToe.scores s0 = TicTacToe.scores s.
Proof.
  intros Hstep Hmove. destruct Hstep; simpl in Hmove; try tauto; eauto.
Qed.

Lemma quiet_terminal_move s e s' :
  quiet_step s e s' → TicTacToe.winner s ≠ no_winner → is_move e → s' = s.
Proof.
  intros Hstep Hw Hmove. destruct Hstep as [index Hi|k s' Hdue _ _| | |]; simpl in Hmove; try tauto.
  - rewrite q_handleClick_eq. destruct (_ || _); [|done].
    apply q_updateGameState_rejected. by right.
  - unfold TicTacToe.computerMoveDue in Hdue.
    apply andb_true_iff in Hdue as [_ Hdue]. apply negb_true_iff in Hdue.
    by apply outcome_truthy_false in Hdue.
Qed.

Lemma quiet_terminal_moves s es s' :
  quiet_run s es s' → TicTacToe.winner s ≠ no_winner → Forall is_move es → s' = s.
Proof.
  induction 1 as [|s e s1 es s2 Hstep Hrun IH]; intros Hw Hall; [done|].
  apply Forall_cons in Hall as [He Hes].
  pose proof (quiet_terminal_move _ _ _ Hstep Hw He) as ->. by apply IH.
Qed.

Lemma quiet_move_turn s e s' :
  quiet_step s e s' → is_move e →
  TicTacToe.board s' ≠ TicTacToe.board s → TicTacToe.winner s' = no_winner →
  TicTacToe.currentPlayer s' = other (TicTacToe.currentPlayer s).
Proof.
  intros Hstep Hmove Hboard Hw.
  destruct Hstep as [index Hi|k s' Hdue Hk Hrun| | |]; simpl in Hmove; try tauto.
  - rewrite !q_handleClick_eq in *. destruct (_ || _); [|done].
    rewrite !q_updateGameState_eq in *. destruct (_ || _) eqn:Hguard; [done|].
    rewrite settle_turn. rewrite settle_winner in Hw.
    by destruct (TicTacToe.evaluateWinner _).
  - unfold TicTacToe.computerMoveDue in Hdue.
    apply andb_true_iff in Hdue as [Hdue _]. apply andb_true_iff in Hdue as [_ Hturn].
    apply bool_decide_eq_true in Hturn. rewrite Hturn.
    rewrite q_makeComputerMove_eq in Hrun.
    destruct (TicTacToe.selectMove _ _ _) as [[move cb]|]; [|done].
    injection Hrun as <-. rewrite settle_turn. rewrite settle_winner in Hw.
    by destruct (TicTacToe.evaluateWinner _).
Qed.

(** X16.  When every handler is run through before the next event (as
    when there is no sound to play): every event of the component that
    applies a move (the board changes) and leaves the game in progress
    passes the turn to the other mark; from a state whose outcome is a win
    or a draw, no sequence of move requests changes the state, so the turn
    stays as it is; the only other events call [resetGame], which sets the
    turn to 'X'. *)
Theorem X16_quiet_turn_alternates (s s' t t' : TicTacToe.state) (e : TicTacToe.event)
    (es : list TicTacToe.event) :
  (quiet_step s e s' → is_move e →
     TicTacToe.board s' ≠ TicTacToe.board s → TicTacToe.winner s' = no_winner →
     TicTacToe.currentPlayer s' = other (TicTacToe.currentPlayer s))
  ∧ (quiet_run t es t' → TicTacToe.winner t ≠ no_winner → Forall is_move es →
     t' = t)
  ∧ (quiet_step s e s' → ¬ is_move e →
     (∃ s0, s' = TicTacToe.resetGame s0) ∧ TicTacToe.currentPlayer s' = X)
  ∧ TicTacToe.currentPlayer (TicTacToe.resetGame s) = X.
Proof.
  split; [apply quiet_move_turn|]. split; [apply quiet_terminal_moves|].
  split; [|done]. intros Hstep Hmove.
  destruct (quiet_reset_shape _ _ _ Hstep Hmove) as (s0 & -> & _). eauto.
Qed.

Lemma X16_quiet_turn_alternates_witness :
  TicTacToe.currentPlayer (q_handleClick 4 TicTacToe.initial) = O.
Proof.
  pose proof (X16_quiet_turn_alternates TicTacToe.initial
    (q_handleClick 4 TicTacToe.initial) TicTacToe.initial TicTacToe.initial
    (TicTacToe.Press 4) []) as (Hflip & _).
  apply Hflip.
  - apply quiet_press. simpl. lia.
  - exact I.
  - discriminate.
  - reflexivity.
Defined.


(** ** Scores, when every handler is run through *)

Lemma bump_score scores m :
  score_of (bump scores m) m = score_of scores m + 1
  ∧ score_of (bump scores m) (other m) = score_of scores (other m).
Proof. by destruct m. Qed.

Lemma settle_score_cases s newBoard next :
  let s' := settle s newBoard next in
  (∀ m, TicTacToe.winner s = no_winner → TicTacToe.winner s' = won m →
        TicTacToe.scores s' = bump (TicTacToe.scores s) m)
  ∧ (TicTacToe.winner s' = draw ∨ TicTacToe.winner s' = no_winner →
     TicTacToe.scores s' = TicTacToe.scores s).
Proof.
  simpl. rewrite settle_winner, settle_scores.
  destruct (TicTacToe.evaluateWinner newBoard) eqn:He; split.
  - intros m -> ?. done.
  - done.
  - intros m _ ?. done.
  - done.
  - intros m0 _ [= ->]. done.
  - intros [?|?]; done.
Qed.

Lemma quiet_scores s e s' :
  quiet_step s e s' →
  (∀ m, TicTacToe.winner s = no_winner → TicTacToe.winner s' = won m →
        TicTacToe.scores s' = bump (TicTacToe.scores s) m)
  ∧ (TicTacToe.winner s ≠ no_winner ∨ TicTacToe.winner s' = draw
     ∨ TicTacToe.winner s' = no_winner →
     TicTacToe.scores s' = TicTacToe.scores s).
Proof.
  intros Hstep.
  destruct (decide (is_move e)) as [Hmove|Hmove].
  2:{ destruct (quiet_reset_shape _ _ _ Hstep Hmove) as (s0 & -> & Hsc).
      split; [by intros m _ ?|]. intros _. done. }
  destruct (decide (TicTacToe.winner s = no_winner)) as [Hw|Hw].
  2:{ rewrite (quiet_terminal_move _ _ _ Hstep Hw Hmove). split; [done|done]. }
  assert (s' = s ∨ ∃ nb next, s' = settle s nb next) as [->|(nb & next & ->)].
  { destruct Hstep as [index Hi|k s' Hdue Hk Hrun| | |]; simpl in Hmove; try tauto.
    - rewrite q_handleClick_eq. destruct (_ || _); [|by left].
      rewrite q_updateGameState_eq. destruct (_ || _); [by left|]. right. eauto.
    - rewrite q_makeComputerMove_eq in Hrun.
      destruct (TicTacToe.selectMove _ _ _) as [[move cb]|]; [|done].
      injection Hrun as <-. right. eauto. }
  - split; [|done]. intros m ? ?. congruence.
  - pose proof (settle_score_cases s nb next) as [H1 H2]. split; [done|].
    intros [?|?]; [done|]. by apply H2.
Qed.

Lemma p_quiet_scores s e s' :
  p_quiet_step s e s' →
  (∀ m, Part001.winner s = no_winner → Part001.winner s' = won m →
        Part001.scores s' = bump (Part001.scores s) m)
  ∧ (Part001.winner s ≠ no_winner ∨ Part001.winner s' = draw
     ∨ Part001.winner s' = no_winner →
     Part001.scores s' = Part001.scores s).
Proof.
  intros Hstep.
  assert (∀ nb next,
    (∀ m, Part001.winner s = no_winner →
          Part001.winner (Part001.settle s nb next) = won m →
          Part001.scores (Part001.settle s nb next) = bump (Part001.scores s) m)
    ∧ (Part001.winner s = no_winner →
       Part001.winner (Part001.settle s nb next) = draw
       ∨ Part001.winner (Part001.settle s nb next) = no_winner →
       Part001.scores (Part001.settle s nb next) = Part001.scores s)) as Hsettle.
  { intros nb next. rewrite p_settle_winner, p_settle_scores.
    destruct (Part001.checkWinner nb); split; try done.
    - intros m -> ?. done.
    - intros m0 _ [= ->]. done.
    - intros _ [?|?]; done. }
  destruct Hstep as [index Hi|k Hdue Hk| |].
  - rewrite pq_onPress_handleClick. rewrite pq_handleClick_eq.
    destruct (_ || _) eqn:Hguard.
    + split; [intros; congruence|done].
    + apply orb_false_iff in Hguard as [_ Hw]. apply outcome_truthy_false in Hw.
      destruct (Hsettle (js_set (Part001.board s) index (str (Part001.currentPlayer s)))
                  (other (Part001.currentPlayer s))) as [H1 H2].
      split; [done|]. intros [?|?]; [done|]. by apply H2.
  - unfold Part001.computerMoveDue in Hdue.
    apply andb_true_iff in Hdue as [_ Hw]. apply negb_true_iff, outcome_truthy_false in Hw.
    unfold Part001.makeComputerMove. case_bool_decide; [|split; [intros; congruence|done]].
    destruct (Hsettle (js_set_at (Part001.board s)
                (Part001.emptySquares (Part001.board s) !! k) (str O)) X) as [H1 H2].
    split; [done|]. intros [?|?]; [done|]. by apply H2.
  - split; [by intros m _ ?|done].
  - split; [by intros m _ ?|done].
Qed.

(** X17.  When every handler is run through before the next event (as
    when there is no sound to play), in every event of either component:
    when the event takes the game from in progress to a win of mark [m],
    the tally of [m] grows by exactly one and the other tally is unchanged;
    in every other event (the game was already over, or the event ends in a
    draw or leaves the game in progress) both tallies are unchanged; and
    [resetGame] keeps the tally. *)
Theorem X17_quiet_score_tally (s s' : TicTacToe.state) (e : TicTacToe.event)
    (p p' : Part001.state) (pe : Part001.event) :
  (quiet_step s e s' →
     (∀ m, TicTacToe.winner s = no_winner → TicTacToe.winner s' = won m →
        score_of (TicTacToe.scores s') m = score_of (TicTacToe.scores s) m + 1
        ∧ score_of (TicTacToe.scores s') (other m)
          = score_of (TicTacToe.scores s) (other m))
     ∧ (TicTacToe.winner s ≠ no_winner ∨ TicTacToe.winner s' = draw
        ∨ TicTacToe.winner s' = no_winner →
        TicTacToe.scores s' = TicTacToe.scores s))
  ∧ (p_quiet_step p pe p' →
     (∀ m, Part001.winner p = no_winner → Part001.winner p' = won m →
        score_of (Part001.scores p') m = score_of (Part001.scores p) m + 1
        ∧ score_of (Part001.scores p') (other m)
          = score_of (Part001.scores p) (other m))
     ∧ (Part001.winner p ≠ no_winner ∨ Part001.winner p' = draw
        ∨ Part001.winner p' = no_winner →
        Part001.scores p' = Part001.scores p))
  ∧ TicTacToe.scores (TicTacToe.resetGame s) = TicTacToe.scores s
  ∧ Part001.scores (Part001.resetGame p) = Part001.scores p.
Proof.
  split; [|split; [|done]].
  - intros Hstep. destruct (quiet_scores _ _ _ Hstep) as [H1 H2]. split; [|done].
    intros m Hw Hw'. rewrite (H1 m Hw Hw'). apply bump_score.
  - intros Hstep. destruct (p_quiet_scores _ _ _ Hstep) as [H1 H2]. split; [|done].
    intros m Hw Hw'. rewrite (H1 m Hw Hw'). apply bump_score.
Qed.

Lemma X17_quiet_score_tally_witness :
  let s := settle TicTacToe.initial
             [str X; str X; null; str O; str O; null; null; null; null] X in
  let s' := q_handleClick 2 s in
  TicTacToe.winner s' = won X
  ∧ score_of (TicTacToe.scores s') X = score_of (TicTacToe.scores s) X + 1
  ∧ score_of (TicTacToe.scores s') O = score_of (TicTacToe.scores s) O.
Proof.
  intros s s'. split; [reflexivity|].
  pose proof (X17_quiet_score_tally s s' (TicTacToe.Press 2)
    Part001.initial Part001.initial Part001.PressReset) as (Hstep & _).
  destruct Hstep as [Hwin _].
  - apply quiet_press. simpl. lia.
  - apply (Hwin X); reflexivity.
Defined.


(** ** Cells, when every handler is run through *)

(** A move event on a board either changes nothing or marks one empty cell. *)
Lemma quiet_move_board s e s' :
  quiet_step s e s' → is_board (TicTacToe.board s) → is_move e →
  TicTacToe.board s' = TicTacToe.board s
  ∨ ∃ i mk, TicTacToe.board s !! i = Some null
      ∧ TicTacToe.board s' = <[i:=str mk]> (TicTacToe.board s).
Proof.
  intros Hstep Hb Hmove.
  destruct Hstep as [index Hi|k s' Hdue Hk Hrun| | |]; simpl in Hmove; try tauto.
  - rewrite q_handleClick_eq. destruct (_ || _); [|by left].
    destruct (q_updateGameState_cases s index Hb) as [->|(Hnull & _ & ->)].
    + destruct Hb. lia.
    + by left.
    + right. rewrite settle_board. eauto.
  - destruct (null_cell_dec (TicTacToe.board s)) as [[i0 Hi0]|Hnone].
    + pose proof (random_index_lt _ _ _ Hi0 Hk) as Hlt.
      destruct (q_makeComputerMove_applied s k Hb Hlt) as (i & Hnull & Heq).
      rewrite Heq in Hrun. injection Hrun as <-. right. rewrite settle_board. eauto.
    + rewrite (q_makeComputerMove_full s k Hb Hnone) in Hrun. injection Hrun as <-.
      left. by rewrite settle_board.
Qed.

Lemma p_quiet_move_board s e s' :
  p_quiet_step s e s' → is_board (Part001.board s) → p_is_move e →
  Part001.board s' = Part001.board s
  ∨ ∃ i mk, Part001.board s !! i = Some null
      ∧ Part001.board s' = <[i:=str mk]> (Part001.board s).
Proof.
  intros Hstep Hb Hmove.
  destruct Hstep as [index Hi|k Hdue Hk| |]; simpl in Hmove; try tauto.
  - rewrite pq_onPress_handleClick.
    destruct (pq_handleClick_cases s index Hb) as [->|(Hnull & _ & ->)].
    + destruct Hb. lia.
    + by left.
    + right. rewrite p_settle_board. eauto.
  - destruct Hk as [Hk|[Hn _]].
    + destruct (p_makeComputerMove_applied s k Hk) as (i & _ & Hnull & ->).
      right. rewrite p_settle_board. eauto.
    + left. unfold Part001.makeComputerMove. by rewrite Hn.
Qed.

Lemma marked_cells_kept (b b' : Board) :
  (b' = b ∨ ∃ i mk, b !! i = Some null ∧ b' = <[i:=str mk]> b) →
  ∀ j m, b !! j = Some (str m) → b' !! j = Some (str m).
Proof.
  intros [->|(i & mk & Hnull & ->)] j m Hj; [done|].
  rewrite list_lookup_insert_ne; [done|]. intros ->. congruence.
Qed.

(** Every step keeps the board a board. *)
Lemma quiet_is_board s e s' :
  quiet_step s e s' → is_board (TicTacToe.board s) → is_board (TicTacToe.board s').
Proof.
  intros Hstep Hb. destruct (decide (is_move e)) as [Hmove|Hmove].
  - destruct (quiet_move_board _ _ _ Hstep Hb Hmove) as [->|(i & mk & _ & ->)]; [done|].
    by apply is_board_insert.
  - destruct (quiet_reset_shape _ _ _ Hstep Hmove) as (s0 & -> & _).
    apply is_board_initial.
Qed.

(** X18.  When every handler is run through before the next event (as
    when there is no sound to play): an applied move writes the moving mark
    into the targeted empty cell and leaves every other cell and the length
    of the board as they were; in every event of either component that is
    not one of the reset buttons, the new board is the old one or the old
    one with one empty cell marked, so a cell that holds a mark keeps it;
    the remaining events reset the whole board. *)
Theorem X18_quiet_one_cell_per_move (s s' : TicTacToe.state) (e : TicTacToe.event)
    (p p' : Part001.state) (pe : Part001.event) (index : nat) :
  (TicTacToe.board s !! index = Some null → TicTacToe.winner s = no_winner →
     let b' := TicTacToe.board (q_updateGameState index s) in
     b' !! index = Some (str (TicTacToe.currentPlayer s))
     ∧ (∀ j, j ≠ index → b' !! j = TicTacToe.board s !! j)
     ∧ length b' = length (TicTacToe.board s))
  ∧ (Part001.board p !! index = Some null → Part001.winner p = no_winner →
     let b' := Part001.board (pq_handleClick index p) in
     b' !! index = Some (str (Part001.currentPlayer p))
     ∧ (∀ j, j ≠ index → b' !! j = Part001.board p !! j)
     ∧ length b' = length (Part001.board p))
  ∧ (quiet_step s e s' → is_board (TicTacToe.board s) → is_move e →
     (TicTacToe.board s' = TicTacToe.board s
      ∨ ∃ i mk, TicTacToe.board s !! i = Some null
          ∧ TicTacToe.board s' = <[i:=str mk]> (TicTacToe.board s))
     ∧ ∀ j m, TicTacToe.board s !! j = Some (str m) →
              TicTacToe.board s' !! j = Some (str m))
  ∧ (p_quiet_step p pe p' → is_board (Part001.board p) → p_is_move pe →
     (Part001.board p' = Part001.board p
      ∨ ∃ i mk, Part001.board p !! i = Some null
          ∧ Part001.board p' = <[i:=str mk]> (Part001.board p))
     ∧ ∀ j m, Part001.board p !! j = Some (str m) →
              Part001.board p' !! j = Some (str m))
  ∧ (quiet_step s e s' → ¬ is_move e → TicTacToe.board s' = initialBoard)
  ∧ (p_quiet_step p pe p' → ¬ p_is_move pe → Part001.board p' = initialBoard).
Proof.
  split; [|split; [|split; [|split; [|split]]]].
  - intros Hnull Hw. simpl. rewrite (q_updateGameState_applied _ _ Hnull Hw), settle_board.
    pose proof (lookup_lt_Some _ _ _ Hnull).
    split; [by apply list_lookup_insert_eq|].
    split; [|by rewrite length_insert]. intros j Hj. by apply list_lookup_insert_ne.
  - intros Hnull Hw. simpl. rewrite (pq_handleClick_applied _ _ Hnull Hw), p_settle_board.
    pose proof (lookup_lt_Some _ _ _ Hnull).
    split; [by apply list_lookup_insert_eq|].
    split; [|by rewrite length_insert]. intros j Hj. by apply list_lookup_insert_ne.
  - intros Hstep Hb Hmove. pose proof (quiet_move_board _ _ _ Hstep Hb Hmove) as H.
    split; [done|]. by apply marked_cells_kept.
  - intros Hstep Hb Hmove. pose proof (p_quiet_move_board _ _ _ Hstep Hb Hmove) as H.
    split; [done|]. by apply marked_cells_kept.
  - intros Hstep Hmove. by destruct Hstep; simpl in Hmove; try tauto.
  - intros Hstep Hmove. by destruct Hstep; simpl in Hmove; try tauto.
Qed.

Lemma X18_quiet_one_cell_per_move_witness :
  TicTacToe.board (q_updateGameState 4 TicTacToe.initial) !! 4%nat
  = Some (str X).
Proof.
  pose proof (X18_quiet_one_cell_per_move TicTacToe.initial TicTacToe.initial
    TicTacToe.PressReset Part001.initial Part001.initial Part001.PressReset 4)
    as (Happly & _).
  destruct Happly as (Hcell & _); [reflexivity|reflexivity|].
  exact Hcell.
Defined.

(** ** What every position satisfies when every handler is run through *)

Lemma position_inv_initial : position_inv initialBoard X no_winner.
Proof.
  split; [apply is_board_initial|]. split; [reflexivity|]. split; [apply legal_start|].
  split; [|done]. intros l m Hl Hholds. exfalso.
  assert (first_line initialBoard winningLines = None) as Hnone by reflexivity.
  apply first_line_None in Hnone. by apply (Hnone l m).
Qed.

Lemma line_holds_insert (b : Board) i mk l m :
  b !! i = Some null → line_holds (<[i:=str mk]> b) l m →
  line_holds b l m ∨ m = mk.
Proof.
  intros Hnull (Ha & Hb & Hc).
  destruct (decide (i = l.1.1)) as [->|Hna].
  { right. rewrite list_lookup_insert_eq in Ha by (by eapply lookup_lt_Some). congruence. }
  destruct (decide (i = l.1.2)) as [->|Hnb].
  { right. rewrite list_lookup_insert_eq in Hb by (by eapply lookup_lt_Some). congruence. }
  destruct (decide (i = l.2)) as [->|Hnc].
  { right. rewrite list_lookup_insert_eq in Hc by (by eapply lookup_lt_Some). congruence. }
  left. rewrite list_lookup_insert_ne in Ha, Hb, Hc by done. by repeat split.
Qed.

(** Writing the mark of the turn into an empty cell of a running game. *)
Lemma position_inv_move (b : Board) mk i :
  position_inv b mk no_winner → b !! i = Some null →
  position_inv (<[i:=str mk]> b) (placed_turn b i mk)
    (TicTacToe.evaluateWinner (<[i:=str mk]> b)).
Proof.
  intros (Hb & Hw & Hlegal & _) Hnull. symmetry in Hw.
  destruct (evaluateWinner_no_line b Hw) as [Hnoline _].
  assert (∀ l m, l ∈ winningLines → line_holds (<[i:=str mk]> b) l m → m = mk) as Hmk.
  { intros l m Hl Hholds. destruct (line_holds_insert _ _ _ _ _ Hnull Hholds) as [H|H]; [|done].
    by destruct (Hnoline l m). }
  assert (∀ m, TicTacToe.evaluateWinner (<[i:=str mk]> b) = won m → m = mk) as Hwon.
  { unfold TicTacToe.evaluateWinner. intros m Hm.
    destruct (first_line _ winningLines) as [m'|] eqn:Hf.
    - injection Hm as ->.
      apply first_line_Some in Hf as (pre & l' & post & Heq & Hh & _).
      apply (Hmk l'); [|done]. rewrite Heq. apply elem_of_app. right. left.
    - by destruct (includes_null _). }
  split; [by apply is_board_insert|]. split; [done|]. split; [|split].
  - assert (to_move (placed_turn b i mk) (TicTacToe.evaluateWinner (<[i:=str mk]> b))
            = other mk) as ->.
    { unfold placed_turn, to_move.
      destruct (TicTacToe.evaluateWinner (<[i:=str mk]> b)); destruct mk; done. }
    by apply legal_move.
  - intros l m Hl Hholds. pose proof (Hmk l m Hl Hholds) as ->.
    unfold TicTacToe.evaluateWinner.
    destruct (first_line _ winningLines) as [m'|] eqn:Hf.
    + apply first_line_Some in Hf as (pre & l' & post & Heq & Hh & _).
      f_equal. apply (Hmk l'); [|done]. rewrite Heq.
      apply elem_of_app. right. left.
    + apply first_line_None in Hf. by destruct (Hf l mk).
  - intros m Hm. rewrite (Hwon m Hm) in *. unfold placed_turn. by rewrite Hm.
Qed.

Lemma game_inv_settle s i :
  game_inv s → TicTacToe.winner s = no_winner → TicTacToe.board s !! i = Some null →
  game_inv (settle s (<[i:=str (TicTacToe.currentPlayer s)]> (TicTacToe.board s))
              (other (TicTacToe.currentPlayer s))).
Proof.
  intros Hinv Hw Hnull. unfold game_inv in *. rewrite Hw in Hinv.
  pose proof (position_inv_move _ _ _ Hinv Hnull) as H.
  rewrite settle_board, settle_turn, settle_winner, Hw.
  unfold placed_turn in H. by destruct (TicTacToe.evaluateWinner _).
Qed.

Lemma p_game_inv_settle s i :
  p_game_inv s → Part001.winner s = no_winner → Part001.board s !! i = Some null →
  p_game_inv (Part001.settle s (<[i:=str (Part001.currentPlayer s)]> (Part001.board s))
                (other (Part001.currentPlayer s))).
Proof.
  intros Hinv Hw Hnull. unfold p_game_inv in *. rewrite Hw in Hinv.
  pose proof (position_inv_move _ _ _ Hinv Hnull) as H.
  rewrite p_settle_board, p_settle_turn, p_settle_winner, Hw,
    checkWinner_evaluateWinner.
  unfold placed_turn in H. by destruct (TicTacToe.evaluateWinner _).
Qed.

Lemma game_inv_fresh s : fresh_game s → game_inv s.
Proof. intros (Hb & Ht & Hw). unfold game_inv. rewrite Hb, Ht, Hw. apply position_inv_initial. Qed.

Lemma p_game_inv_fresh s : p_fresh_game s → p_game_inv s.
Proof. intros (Hb & Ht & Hw). unfold p_game_inv. rewrite Hb, Ht, Hw. apply position_inv_initial. Qed.

(** A running game has an empty cell. *)
Lemma game_inv_null_cell s :
  game_inv s → TicTacToe.winner s = no_winner → ∃ i, TicTacToe.board s !! i = Some null.
Proof.
  intros (_ & Hw & _) Hno. rewrite Hno in Hw. symmetry in Hw.
  by destruct (evaluateWinner_no_line _ Hw).
Qed.

Lemma game_inv_step s e s' : quiet_step s e s' → game_inv s → game_inv s'.
Proof.
  intros Hstep Hinv. pose proof Hinv as (Hb & _).
  destruct Hstep as [index Hi|k s' Hdue Hk Hrun| | |].
  - rewrite q_handleClick_eq. destruct (_ || _); [|done].
    destruct (q_updateGameState_cases s index Hb) as [->|(Hnull & Hw & ->)]; [destruct Hb; lia|done|].
    by apply game_inv_settle.
  - apply computerMoveDue_spec in Hdue as (_ & Ht & Hw).
    destruct (game_inv_null_cell s Hinv Hw) as [i0 Hi0].
    pose proof (random_index_lt _ _ _ Hi0 Hk) as Hlt.
    destruct (q_makeComputerMove_applied s k Hb Hlt) as (i & Hnull & Heq).
    rewrite Heq in Hrun. injection Hrun as <-.
    pose proof (game_inv_settle s i Hinv Hw Hnull) as H. by rewrite Ht in H.
  - by apply game_inv_fresh.
  - by apply game_inv_fresh.
  - by apply game_inv_fresh.
Qed.

Lemma p_game_inv_step s e s' : p_quiet_step s e s' → p_game_inv s → p_game_inv s'.
Proof.
  intros Hstep Hinv. pose proof Hinv as (Hb & Hcons & _).
  destruct Hstep as [index Hi|k Hdue Hk| |].
  - rewrite pq_onPress_handleClick.
    destruct (pq_handleClick_cases s index Hb) as [->|(Hnull & Hw & ->)]; [destruct Hb; lia|done|].
    by apply p_game_inv_settle.
  - apply p_computerMoveDue_spec in Hdue as (_ & Ht & Hw).
    rewrite Hw in Hcons. symmetry in Hcons.
    destruct (evaluateWinner_no_line _ Hcons) as [_ [i0 Hi0]].
    pose proof (random_index_lt _ _ _ Hi0 Hk) as Hlt.
    destruct (p_makeComputerMove_applied s k Hlt) as (i & _ & Hnull & ->).
    pose proof (p_game_inv_settle s i Hinv Hw Hnull) as H. by rewrite Ht in H.
  - by apply p_game_inv_fresh.
  - by apply p_game_inv_fresh.
Qed.

Lemma game_inv_run s es s' : quiet_run s es s' → game_inv s → game_inv s'.
Proof.
  induction 1 as [|s e s1 es s2 Hstep Hrun IH]; [done|].
  intros Hinv. apply IH. by eapply game_inv_step.
Qed.

Lemma p_game_inv_run s es s' : p_quiet_run s es s' → p_game_inv s → p_game_inv s'.
Proof.
  induction 1 as [|s e s1 es s2 Hstep Hrun IH]; [done|].
  intros Hinv. apply IH. by eapply p_game_inv_step.
Qed.

Lemma count_mark_insert (b : Board) i m mk :
  b !! i = Some null →
  count_mark m (<[i:=str mk]> b)
  = (count_mark m b + if decide (m = mk) then 1 else 0)%nat.
Proof.
  unfold count_mark. revert i. induction b as [|v b IH]; intros i H; [done|].
  destruct i as [|i]; simpl in *.
  - inversion H; subst. rewrite !filter_cons.
    destruct (decide (str mk = str m)) as [Heq|Hne]; destruct (decide (m = mk));
      destruct (decide (null = str m)); simpl; try done; try congruence; lia.
  - specialize (IH i H). rewrite !filter_cons.
    destruct (decide (v = str m)); simpl; lia.
Qed.

Lemma legal_play_counts (b : Board) m :
  legal_play b m →
  count_mark X b = (count_mark O b + match m with X => 0 | O => 1 end)%nat.
Proof.
  induction 1 as [|b m i Hplay IH Hw Hnull]; [done|].
  rewrite !(count_mark_insert _ _ _ _ Hnull).
  destruct m; simpl in *; repeat case_decide; try congruence; lia.
Qed.

(** X1.  When every handler is run through before the next event (as
    when there is no sound to play), in every state a component reaches from
    the start of a game the board has nine cells, none of them [undefined],
    and the [winner] field is what [evaluateWinner] ([checkWinner] in
    part_001) returns on the board. *)
Theorem X1_quiet_outcome_matches_board (s0 s : TicTacToe.state) (es : list TicTacToe.event)
    (p0 p : Part001.state) (pes : list Part001.event) :
  (fresh_game s0 → quiet_run s0 es s →
     is_board (TicTacToe.board s)
     ∧ TicTacToe.winner s = TicTacToe.evaluateWinner (TicTacToe.board s))
  ∧ (p_fresh_game p0 → p_quiet_run p0 pes p →
     is_board (Part001.board p)
     ∧ Part001.winner p = Part001.checkWinner (Part001.board p)).
Proof.
  split.
  - intros Hf Hrun.
    destruct (game_inv_run _ _ _ Hrun (game_inv_fresh _ Hf)) as (Hb & Hw & _). done.
  - intros Hf Hrun.
    destruct (p_game_inv_run _ _ _ Hrun (p_game_inv_fresh _ Hf)) as (Hb & Hw & _).
    by rewrite checkWinner_evaluateWinner.
Qed.

Lemma X1_quiet_outcome_matches_board_witness :
  let s := q_handleClick 4 TicTacToe.initial in
  is_board (TicTacToe.board s)
  ∧ TicTacToe.winner s = TicTacToe.evaluateWinner (TicTacToe.board s).
Proof.
  intros s.
  apply (X1_quiet_outcome_matches_board TicTacToe.initial s [TicTacToe.Press 4]
           Part001.initial Part001.initial []).
  - by repeat split.
  - eapply quiet_cons; [|apply quiet_nil].
    apply quiet_press. simpl. lia.
Defined.

(** X2.  When every handler is run through before the next event (as
    when there is no sound to play), every board a component reaches from
    the start of a game is a position of legal alternating play from the
    empty board, 'X' first, with the turn as the mark to move while the
    game runs (and the other mark to move once it is over).  In particular
    'X' and 'O' are level when 'X' is to move and 'X' is one ahead when 'O'
    is. *)
Theorem X2_quiet_boards_are_legal_play (s0 s : TicTacToe.state) (es : list TicTacToe.event)
    (p0 p : Part001.state) (pes : list Part001.event) :
  (fresh_game s0 → quiet_run s0 es s →
     let m := to_move (TicTacToe.currentPlayer s) (TicTacToe.winner s) in
     legal_play (TicTacToe.board s) m
     ∧ count_mark X (TicTacToe.board s)
       = (count_mark O (TicTacToe.board s) + match m with X => 0 | O => 1 end)%nat)
  ∧ (p_fresh_game p0 → p_quiet_run p0 pes p →
     let m := to_move (Part001.currentPlayer p) (Part001.winner p) in
     legal_play (Part001.board p) m
     ∧ count_mark X (Part001.board p)
       = (count_mark O (Part001.board p) + match m with X => 0 | O => 1 end)%nat).
Proof.
  split.
  - intros Hf Hrun.
    destruct (game_inv_run _ _ _ Hrun (game_inv_fresh _ Hf)) as (_ & _ & Hplay & _).
    split; [done|]. by apply legal_play_counts.
  - intros Hf Hrun.
    destruct (p_game_inv_run _ _ _ Hrun (p_game_inv_fresh _ Hf)) as (_ & _ & Hplay & _).
    split; [done|]. by apply legal_play_counts.
Qed.

Lemma X2_quiet_boards_are_legal_play_witness :
  let s := q_handleClick 4 TicTacToe.initial in
  legal_play (TicTacToe.board s) O
  ∧ count_mark X (TicTacToe.board s) = (count_mark O (TicTacToe.board s) + 1)%nat.
Proof.
  intros s.
  apply (X2_quiet_boards_are_legal_play TicTacToe.initial s [TicTacToe.Press 4]
           Part001.initial Part001.initial []).
  - by repeat split.
  - eapply quiet_cons; [|apply quiet_nil].
    apply quiet_press. simpl. lia.
Defined.

Lemma position_inv_won (b : Board) turn w m :
  position_inv b turn w →
  (w = won m ↔ ∃ l, l ∈ winningLines ∧ line_holds b l m).
Proof.
  intros (_ & Hw & _ & Hlines & _). split.
  - intros ->. unfold TicTacToe.evaluateWinner in Hw.
    destruct (first_line b winningLines) as [m'|] eqn:Hf.
    + injection Hw as ->.
      apply first_line_Some in Hf as (pre & l & post & Heq & Hh & _).
      exists l. split; [|done]. rewrite Heq. apply elem_of_app. right. left.
    + by destruct (includes_null b).
  - intros (l & Hl & Hh). by eapply Hlines.
Qed.

Lemma position_inv_one_mark (b : Board) turn w l1 l2 :
  position_inv b turn w → l1 ∈ winningLines → l2 ∈ winningLines →
  line_holds b l1 X → ¬ line_holds b l2 O.
Proof.
  intros (_ & _ & _ & Hlines & _) H1 H2 Hx Ho.
  pose proof (Hlines _ _ H1 Hx). pose proof (Hlines _ _ H2 Ho). congruence.
Qed.

(** X3.  When every handler is run through before the next event (as
    when there is no sound to play), in every state a component reaches from
    the start of a game the outcome is the win of mark [m] exactly when
    some line of [winningLines] holds for [m]; 'X' and 'O' never both hold
    a line, so the order in which the lines are scanned never decides the
    winner; and the turn stays with the winner. *)
Theorem X3_quiet_one_mark_holds_lines (s0 s : TicTacToe.state) (es : list TicTacToe.event)
    (p0 p : Part001.state) (pes : list Part001.event) :
  (fresh_game s0 → quiet_run s0 es s →
     (∀ m, TicTacToe.winner s = won m ↔
           ∃ l, l ∈ winningLines ∧ line_holds (TicTacToe.board s) l m)
     ∧ (∀ l1 l2, l1 ∈ winningLines → l2 ∈ winningLines →
         line_holds (TicTacToe.board s) l1 X → ¬ line_holds (TicTacToe.board s) l2 O)
     ∧ ∀ m, TicTacToe.winner s = won m → TicTacToe.currentPlayer s = m)
  ∧ (p_fresh_game p0 → p_quiet_run p0 pes p →
     (∀ m, Part001.winner p = won m ↔
           ∃ l, l ∈ winningLines ∧ line_holds (Part001.board p) l m)
     ∧ (∀ l1 l2, l1 ∈ winningLines → l2 ∈ winningLines →
         line_holds (Part001.board p) l1 X → ¬ line_holds (Part001.board p) l2 O)
     ∧ ∀ m, Part001.winner p = won m → Part001.currentPlayer p = m).
Proof.
  split.
  - intros Hf Hrun.
    pose proof (game_inv_run _ _ _ Hrun (game_inv_fresh _ Hf)) as Hinv.
    split; [intros m; by eapply position_inv_won|].
    split; [intros l1 l2; by eapply position_inv_one_mark|].
    by destruct Hinv as (_ & _ & _ & _ & Hturn).
  - intros Hf Hrun.
    pose proof (p_game_inv_run _ _ _ Hrun (p_game_inv_fresh _ Hf)) as Hinv.
    split; [intros m; by eapply position_inv_won|].
    split; [intros l1 l2; by eapply position_inv_one_mark|].
    by destruct Hinv as (_ & _ & _ & _ & Hturn).
Qed.

Lemma X3_quiet_one_mark_holds_lines_witness :
  ∃ s, quiet_run (TicTacToe.toggleGameMode TicTacToe.initial)
         [TicTacToe.Press 0; TicTacToe.Press 3; TicTacToe.Press 1;
          TicTacToe.Press 4; TicTacToe.Press 2] s
       ∧ TicTacToe.winner s = won X ∧ TicTacToe.currentPlayer s = X.
Proof.
  eassert (quiet_run (TicTacToe.toggleGameMode TicTacToe.initial)
             [TicTacToe.Press 0; TicTacToe.Press 3; TicTacToe.Press 1;
              TicTacToe.Press 4; TicTacToe.Press 2] _) as Hrun.
  { do 5 qfire_press. apply quiet_nil. }
  eexists. split; [exact Hrun|]. split; [reflexivity|].
  pose proof (fun s0 s es =>
    proj1 (X3_quiet_one_mark_holds_lines s0 s es Part001.initial Part001.initial [])) as H.
  assert (fresh_game (TicTacToe.toggleGameMode TicTacToe.initial)) as Hf
    by (by repeat split).
  destruct (H _ _ _ Hf Hrun) as (_ & _ & Hturn).
  apply Hturn. reflexivity.
Defined.

(** X4.  When every handler is run through before the next event (as
    when there is no sound to play), in every state reached from the start
    of a game the scheduled computer move, when it fires, writes 'O' into
    exactly one empty cell: a game in progress always has an empty cell, so
    the search never ends with [move] at -1 and the random branch never
    reads past the list of available cells. *)
Theorem X4_quiet_computer_move_places (s0 s s' : TicTacToe.state)
    (es : list TicTacToe.event) (k : nat)
    (p0 p p' : Part001.state) (pes : list Part001.event) :
  (fresh_game s0 → quiet_run s0 es s → quiet_step s (TicTacToe.TimerFires k) s' →
     ∃ i, TicTacToe.board s !! i = Some null
          ∧ TicTacToe.board s' = <[i:=str O]> (TicTacToe.board s))
  ∧ (p_fresh_game p0 → p_quiet_run p0 pes p → p_quiet_step p (Part001.TimerFires k) p' →
     ∃ i, Part001.board p !! i = Some null
          ∧ Part001.board p' = <[i:=str O]> (Part001.board p)).
Proof.
  split.
  - intros Hf Hrun Hstep.
    pose proof (game_inv_run _ _ _ Hrun (game_inv_fresh _ Hf)) as Hinv.
    pose proof Hinv as (Hb & _).
    inversion Hstep as [|k' t Hdue Hk Hmove| | |]; subst.
    apply computerMoveDue_spec in Hdue as (_ & _ & Hw).
    destruct (game_inv_null_cell s Hinv Hw) as [i0 Hi0].
    pose proof (random_index_lt _ _ _ Hi0 Hk) as Hlt.
    destruct (q_makeComputerMove_applied s k Hb Hlt) as (i & Hnull & Heq).
    rewrite Heq in Hmove. injection Hmove as <-. exists i. by rewrite settle_board.
  - intros Hf Hrun Hstep.
    pose proof (p_game_inv_run _ _ _ Hrun (p_game_inv_fresh _ Hf)) as (_ & Hcons & _).
    inversion Hstep as [|k' Hdue Hk| |]; subst.
    apply p_computerMoveDue_spec in Hdue as (_ & _ & Hw).
    rewrite Hw in Hcons. symmetry in Hcons.
    destruct (evaluateWinner_no_line _ Hcons) as [_ [i0 Hi0]].
    pose proof (random_index_lt _ _ _ Hi0 Hk) as Hlt.
    destruct (p_makeComputerMove_applied p k Hlt) as (i & _ & Hnull & ->).
    exists i. by rewrite p_settle_board.
Qed.

Lemma X4_quiet_computer_move_places_witness :
  let p := pq_onPress 4 Part001.initial in
  ∃ i, Part001.board p !! i = Some null
       ∧ Part001.board (Part001.makeComputerMove 2 p) = <[i:=str O]> (Part001.board p).
Proof.
  intros p.
  apply (X4_quiet_computer_move_places TicTacToe.initial TicTacToe.initial
           TicTacToe.initial [] 2 Part001.initial p (Part001.makeComputerMove 2 p)
           [Part001.Press 4]).
  - by repeat split.
  - eapply p_quiet_cons; [|apply p_quiet_nil]. apply p_quiet_press. simpl. lia.
  - apply p_quiet_timer; [reflexivity|]. left. vm_compute. lia.
Defined.

(** ** Scores over a session *)

Lemma bump_ge scores m :
  score_X scores ≤ score_X (bump scores m) ∧ score_O scores ≤ score_O (bump scores m).
Proof. destruct m; simpl; lia. Qed.

Lemma record_outcome_scores_ge s gameWinner next :
  score_X (TicTacToe.scores s) ≤ score_X (TicTacToe.scores (TicTacToe.record_outcome s gameWinner next))
  ∧ score_O (TicTacToe.scores s) ≤ score_O (TicTacToe.scores (TicTacToe.record_outcome s gameWinner next)).
Proof. destruct gameWinner as [| |m]; simpl; [lia|lia|apply bump_ge]. Qed.

Lemma p_settle_scores_ge s newBoard next :
  score_X (Part001.scores s) ≤ score_X (Part001.scores (Part001.settle s newBoard next))
  ∧ score_O (Part001.scores s) ≤ score_O (Part001.scores (Part001.settle s newBoard next)).
Proof.
  rewrite p_settle_scores. destruct (Part001.checkWinner newBoard) as [| |m];
    [lia|lia|apply bump_ge].
Qed.

Lemma handleClick_scores index s :
  TicTacToe.scores (TicTacToe.handleClick index s).1 = TicTacToe.scores s.
Proof.
  unfold TicTacToe.handleClick, TicTacToe.updateGameState.
  destruct (_ || _); [|done]. by destruct (_ || _).
Qed.

Lemma step_scores_mono cfg e cfg' :
  TicTacToe.step cfg e cfg' →
  score_X (TicTacToe.scores cfg.1) ≤ score_X (TicTacToe.scores cfg'.1)
  ∧ score_O (TicTacToe.scores cfg.1) ≤ score_O (TicTacToe.scores cfg'.1).
Proof.
  intros Hstep.
  destruct Hstep as [s ps index s' c Hi Hh|s ps k s' c Hdue Hk Hrun|s ps j c Hj|s ps|s ps|s ps];
    simpl; try lia.
  - pose proof (handleClick_scores index s) as H. rewrite Hh in H. simpl in H.
    rewrite H. lia.
  - unfold TicTacToe.makeComputerMove in Hrun.
    destruct (TicTacToe.selectMove _ _ _) as [[move cb]|]; [|done].
    injection Hrun as <- <-. simpl. lia.
  - destruct c as [newBoard turn|currentBoard move]; simpl.
    + apply record_outcome_scores_ge.
    + apply (record_outcome_scores_ge
               (TicTacToe.setBoard s (js_set_at currentBoard move (str O)))).
Qed.

Lemma p_step_scores_mono cfg e cfg' :
  Part001.step cfg e cfg' →
  score_X (Part001.scores cfg.1) ≤ score_X (Part001.scores cfg'.1)
  ∧ score_O (Part001.scores cfg.1) ≤ score_O (Part001.scores cfg'.1).
Proof.
  intros Hstep.
  destruct Hstep as [s ps index Hi|s ps k Hdue Hk|s ps j c Hj|s ps|s ps]; simpl; try lia.
  - unfold Part001.makeComputerMove. case_bool_decide; [|lia].
    apply p_settle_scores_ge.
  - destruct c as [b index turn]. simpl. apply p_settle_scores_ge.
Qed.

(** X5.  Over any sequence of events of either component (presses, the
    computer's move, the rest of a suspended handler resumed at any time
    and in any order, resets, mode and difficulty changes) neither tally
    ever decreases: nothing in a session takes a recorded win away. *)
Theorem X5_scores_never_decrease
    (cfg cfg' : TicTacToe.state * list TicTacToe.continuation) (es : list TicTacToe.event)
    (pcfg pcfg' : Part001.state * list Part001.continuation) (pes : list Part001.event) :
  (TicTacToe.run cfg es cfg' →
     score_X (TicTacToe.scores cfg.1) ≤ score_X (TicTacToe.scores cfg'.1)
     ∧ score_O (TicTacToe.scores cfg.1) ≤ score_O (TicTacToe.scores cfg'.1))
  ∧ (Part001.run pcfg pes pcfg' →
     score_X (Part001.scores pcfg.1) ≤ score_X (Part001.scores pcfg'.1)
     ∧ score_O (Part001.scores pcfg.1) ≤ score_O (Part001.scores pcfg'.1)).
Proof.
  split.
  - induction 1 as [|c e c1 es0 c2 Hstep Hrun IH]; [lia|].
    pose proof (step_scores_mono _ _ _ Hstep). lia.
  - induction 1 as [|c e c1 es0 c2 Hstep Hrun IH]; [lia|].
    pose proof (p_step_scores_mono _ _ _ Hstep). lia.
Qed.

Lemma X5_scores_never_decrease_witness :
  ∃ s, TicTacToe.run (TicTacToe.initial, [])
         [TicTacToe.Press 0; TicTacToe.Press 1; TicTacToe.SoundDone 1; TicTacToe.PressReset;
          TicTacToe.SoundDone 0] (s, [])
       ∧ score_X (TicTacToe.scores TicTacToe.initial) ≤ score_X (TicTacToe.scores s)
       ∧ score_O (TicTacToe.scores TicTacToe.initial) ≤ score_O (TicTacToe.scores s).
Proof.
  eassert (TicTacToe.run (TicTacToe.initial, [])
             [TicTacToe.Press 0; TicTacToe.Press 1; TicTacToe.SoundDone 1;
              TicTacToe.PressReset; TicTacToe.SoundDone 0] (_, [])) as Hrun.
  { fire_press. fire_press. fire_sound. fire_button. fire_sound. apply TicTacToe.run_nil. }
  eexists. split; [exact Hrun|].
  pose proof (fun c c' es =>
    proj1 (X5_scores_never_decrease c c' es (Part001.initial, []) (Part001.initial, []) []))
    as H.
  exact (H _ _ _ Hrun).
Defined.

(** ** The hard computer takes a win *)

(** X8.  The hard computer takes a win when it has one: on a board where
    'O' on some empty cell completes a line, the cell the hard branch
    chooses completes a line of 'O'; [makeComputerMove] suspends with that
    cell, and the rest of the handler, on whatever state it is resumed,
    sets the board with 'O' on that cell, ends the game with 'O' as the
    winner and adds one to the tally of 'O'. *)
Theorem X8_hard_takes_the_win (s : TicTacToe.state) (k w : nat) :
  is_board (TicTacToe.board s) → TicTacToe.difficulty s = hard →
  TicTacToe.board s !! w = Some null →
  TicTacToe.evaluateWinner (<[w:=str O]> (TicTacToe.board s)) = won O →
  ∃ i, TicTacToe.selectMove hard k (TicTacToe.board s) = Some (Some i, TicTacToe.board s)
    ∧ TicTacToe.board s !! i = Some null
    ∧ TicTacToe.evaluateWinner (<[i:=str O]> (TicTacToe.board s)) = won O
    ∧ TicTacToe.makeComputerMove k s
      = Some (s, TicTacToe.rest_of_makeComputerMove (TicTacToe.board s) (Some i))
    ∧ ∀ t, let t' := TicTacToe.resume
                       (TicTacToe.rest_of_makeComputerMove (TicTacToe.board s) (Some i)) t in
        TicTacToe.board t' = <[i:=str O]> (TicTacToe.board s)
        ∧ TicTacToe.winner t' = won O
        ∧ score_O (TicTacToe.scores t') = score_O (TicTacToe.scores t) + 1.
Proof.
  intros Hb Hd Hnull Hwin.
  destruct (selectMove_hard_ok _ k Hb (ex_intro _ w Hnull))
    as (i & z & Hsel & _ & Hi & Hval & Hall).
  destruct (Hall w Hnull) as (zw & Hzw & Hle & _).
  destruct (move_value_range _ w Hb Hnull) as (zw' & Hzw' & _ & Hw10 & _).
  assert (zw' = zw) as -> by congruence.
  apply Hw10 in Hwin. subst zw.
  destruct (move_value_range _ i Hb Hi) as (z' & Hz' & Hrange & Hi10 & _).
  assert (z' = z) as -> by congruence.
  assert (TicTacToe.evaluateWinner (<[i:=str O]> (TicTacToe.board s)) = won O) as Hiwin.
  { apply Hi10. lia. }
  exists i. split; [done|]. split; [done|]. split; [done|]. split.
  - unfold TicTacToe.makeComputerMove. by rewrite Hd, Hsel, setBoard_same.
  - intros t. cbv zeta. rewrite resume_makeComputerMove.
    change (js_set_at (TicTacToe.board s) (Some i) (str O))
      with (js_set (TicTacToe.board s) i (str O)).
    rewrite (js_set_null_cell _ _ _ Hi).
    rewrite settle_board, settle_winner, settle_scores, Hiwin. simpl. done.
Qed.

Lemma X8_hard_takes_the_win_witness :
  let s := settle TicTacToe.initial
             [str O; str X; str X; null; str O; str X; null; null; null] O in
  ∃ i, TicTacToe.board s !! i = Some null
    ∧ TicTacToe.makeComputerMove 0 s
      = Some (s, TicTacToe.rest_of_makeComputerMove (TicTacToe.board s) (Some i))
    ∧ TicTacToe.winner
        (TicTacToe.resume (TicTacToe.rest_of_makeComputerMove (TicTacToe.board s) (Some i)) s)
      = won O.
Proof.
  intros s.
  destruct (X8_hard_takes_the_win s 0 8) as (i & _ & Hi & _ & Hrun & Hres).
  - split; [reflexivity|]. repeat constructor; discriminate.
  - reflexivity.
  - reflexivity.
  - reflexivity.
  - exists i. split; [done|]. split; [done|]. by destruct (Hres s) as (_ & Hw & _).
Defined.

(** ** Presses and buttons *)

Lemma js_get_set (b : Board) i v : js_get (js_set b i v) i = v.
Proof.
  unfold js_get, js_set. case_decide as Hi.
  - by rewrite list_lookup_insert_eq.
  - rewrite lookup_app_r by lia. rewrite lookup_app_r; rewrite length_replicate; [|lia].
    by replace (i - length b - (i - length b))%nat with 0%nat by lia.
Qed.

Lemma updateGameState_again s index :
  TicTacToe.updateGameState index (TicTacToe.updateGameState index s).1
  = ((TicTacToe.updateGameState index s).1, None).
Proof.
  unfold TicTacToe.updateGameState at 2 3.
  destruct (truthy (js_get (TicTacToe.board s) index)
            || outcome_truthy (TicTacToe.winner s)) eqn:Hguard; simpl.
  - unfold TicTacToe.updateGameState. by rewrite Hguard.
  - unfold TicTacToe.updateGameState. simpl. by rewrite js_get_set.
Qed.

Lemma updateGameState_keeps_gate s index :
  TicTacToe.gameMode (TicTacToe.updateGameState index s).1 = TicTacToe.gameMode s
  ∧ TicTacToe.currentPlayer (TicTacToe.updateGameState index s).1
    = TicTacToe.currentPlayer s.
Proof. unfold TicTacToe.updateGameState. by destruct (_ || _). Qed.

Lemma q_updateGameState_twice s index :
  q_updateGameState index (q_updateGameState index s) = q_updateGameState index s.
Proof.
  rewrite (q_updateGameState_eq index s).
  destruct (truthy (js_get (TicTacToe.board s) index)
            || outcome_truthy (TicTacToe.winner s)) eqn:Hguard.
  - rewrite q_updateGameState_eq. by rewrite Hguard.
  - rewrite q_updateGameState_eq. by rewrite settle_board, js_get_set.
Qed.

Lemma pq_handleClick_twice s index :
  pq_handleClick index (pq_handleClick index s) = pq_handleClick index s.
Proof.
  rewrite (pq_handleClick_eq index s).
  destruct (truthy (js_get (Part001.board s) index)
            || outcome_truthy (Part001.winner s)) eqn:Hguard.
  - rewrite pq_handleClick_eq. by rewrite Hguard.
  - rewrite pq_handleClick_eq. by rewrite p_settle_board, js_get_set.
Qed.

(** X9.  In the component, where [updateGameState] sets the board before
    its [await], a second press on the same square is dropped whether or
    not the first handler has been resumed: right after a press, the same
    press returns the state unchanged and leaves nothing to resume.  And in
    both components a press that is run through, repeated, has the effect of
    the single press. *)
Theorem X9_second_press_changes_nothing (s : TicTacToe.state) (p : Part001.state)
    (index : nat) :
  TicTacToe.updateGameState index (TicTacToe.updateGameState index s).1
  = ((TicTacToe.updateGameState index s).1, None)
  ∧ TicTacToe.handleClick index (TicTacToe.handleClick index s).1
    = ((TicTacToe.handleClick index s).1, None)
  ∧ q_updateGameState index (q_updateGameState index s) = q_updateGameState index s
  ∧ q_handleClick index (q_handleClick index s) = q_handleClick index s
  ∧ pq_handleClick index (pq_handleClick index p) = pq_handleClick index p
  ∧ pq_onPress index (pq_onPress index p) = pq_onPress index p.
Proof.
  split; [apply updateGameState_again|]. split; [|split; [|split; [|split]]].
  - unfold TicTacToe.handleClick at 2 3.
    destruct (bool_decide (TicTacToe.gameMode s = multi)
              || bool_decide (TicTacToe.currentPlayer s = X)) eqn:Hgate.
    + destruct (updateGameState_keeps_gate s index) as [Hm Ht].
      unfold TicTacToe.handleClick. rewrite Hm, Ht, Hgate.
      apply updateGameState_again.
    + simpl. unfold TicTacToe.handleClick. by rewrite Hgate.
  - apply q_updateGameState_twice.
  - rewrite (q_handleClick_eq s index).
    destruct (bool_decide (TicTacToe.gameMode s = multi)
              || bool_decide (TicTacToe.currentPlayer s = X)) eqn:Hgate.
    + rewrite q_handleClick_eq.
      match goal with |- (if ?c then _ else _) = _ => destruct c end; [|done].
      apply q_updateGameState_twice.
    + rewrite q_handleClick_eq. by rewrite Hgate.
  - apply pq_handleClick_twice.
  - rewrite !pq_onPress_handleClick. apply pq_handleClick_twice.
Qed.

(** X10.  The buttons compose as resets: a second press of the mode button
    (or of the difficulty button) brings the setting back and leaves a
    fresh game, exactly what [resetGame] alone would give; the two buttons
    commute; [resetGame] twice is [resetGame]; and none of them touches the
    scores. *)
Theorem X10_buttons_compose (s : TicTacToe.state) (p : Part001.state) :
  TicTacToe.toggleGameMode (TicTacToe.toggleGameMode s) = TicTacToe.resetGame s
  ∧ TicTacToe.toggleDifficulty (TicTacToe.toggleDifficulty s) = TicTacToe.resetGame s
  ∧ TicTacToe.toggleGameMode (TicTacToe.toggleDifficulty s)
    = TicTacToe.toggleDifficulty (TicTacToe.toggleGameMode s)
  ∧ TicTacToe.resetGame (TicTacToe.resetGame s) = TicTacToe.resetGame s
  ∧ TicTacToe.scores (TicTacToe.toggleGameMode s) = TicTacToe.scores s
  ∧ TicTacToe.scores (TicTacToe.toggleDifficulty s) = TicTacToe.scores s
  ∧ Part001.toggleGameMode (Part001.toggleGameMode p) = Part001.resetGame p
  ∧ Part001.scores (Part001.toggleGameMode p) = Part001.scores p.
Proof.
  destruct s as [b t w [|] [|] sc]; destruct p as [pb pt pw [|] psc]; by repeat split.
Qed.

(** X11.  On a board without an empty cell the computer's move of
    part_001 returns the state as it is (its guard
    [emptySquares.length > 0]), while the component's [makeComputerMove],
    which has no such guard, still runs: it suspends with no cell to write
    ([move] is -1 or [undefined]), and the rest of the handler, on whatever
    state it is resumed, sets the board to a copy of the board it was
    called on, with every cell as it was. *)
Theorem X11_computer_move_without_empty_cell (s : TicTacToe.state) (p : Part001.state)
    (k : nat) :
  ((∀ i, Part001.board p !! i ≠ Some null) → Part001.makeComputerMove k p = p)
  ∧ (is_board (TicTacToe.board s) → (∀ i, TicTacToe.board s !! i ≠ Some null) →
     TicTacToe.makeComputerMove k s
     = Some (s, TicTacToe.rest_of_makeComputerMove (TicTacToe.board s) None)
     ∧ ∀ t, TicTacToe.board
              (TicTacToe.resume
                 (TicTacToe.rest_of_makeComputerMove (TicTacToe.board s) None) t)
            = TicTacToe.board s).
Proof.
  split.
  - intros Hnone. unfold Part001.makeComputerMove.
    rewrite available_emptySquares, (available_none _ Hnone). done.
  - intros Hb Hnone. split; [by apply makeComputerMove_full|].
    intros t. by rewrite resume_makeComputerMove, settle_board.
Qed.

Lemma X11_computer_move_without_empty_cell_witness :
  let b := [str X; str O; str X; str X; str O; str O; str O; str X; str X] in
  let p := Part001.settle Part001.initial b X in
  Part001.makeComputerMove 0 p = p.
Proof.
  intros b p.
  apply (X11_computer_move_without_empty_cell TicTacToe.initial p 0).
  intros i. destruct i as [|[|[|[|[|[|[|[|[|i]]]]]]]]]; discriminate.
Defined.

(** X12.  part_001 does not look at the turn when a square is pressed: in
    a running game, a press on an empty cell while it is the turn of 'O'
    (even in single-player mode, before the scheduled computer move fires)
    passes the guard and suspends with the turn 'O' in its closure, and the
    rest of the handler, on whatever state it is resumed, sets the board to
    the board of the press with 'O' in that cell. *)
Theorem X12_part001_press_on_computer_turn (p : Part001.state) (index : nat) :
  Part001.currentPlayer p = O → Part001.winner p = no_winner →
  Part001.board p !! index = Some null →
  Part001.onPress index p = Some (Part001.rest_of_handleClick (Part001.board p) index O)
  ∧ ∀ t, Part001.board
           (Part001.resume (Part001.rest_of_handleClick (Part001.board p) index O) t)
         = <[index:=str O]> (Part001.board p).
Proof.
  intros Ht Hw Hnull. split.
  - by rewrite p_onPress_handleClick, (p_handleClick_accepted _ _ Hnull Hw), Ht.
  - intros t. simpl. rewrite p_settle_board. by apply js_set_null_cell.
Qed.

Lemma X12_part001_press_on_computer_turn_witness :
  let p := pq_onPress 4 Part001.initial in
  Part001.gameMode p = single
  ∧ Part001.board (pq_onPress 0 p) = <[0%nat:=str O]> (Part001.board p).
Proof.
  intros p. split; [reflexivity|].
  destruct (X12_part001_press_on_computer_turn p 0) as [Hpress Hres];
    [reflexivity|reflexivity|reflexivity|].
  unfold pq_onPress at 1. rewrite Hpress. apply Hres.
Defined.

(** ** Drawn games *)

Lemma count_partition (b : Board) :
  Forall (fun v => v ≠ undefined) b →
  (count_mark X b + count_mark O b + count_null b = length b)%nat.
Proof.
  unfold count_mark, count_null. induction 1 as [|v b Hv _ IH]; [done|].
  rewrite !filter_cons. destruct v as [| |[|]]; repeat case_decide; simpl;
    try congruence; lia.
Qed.

Lemma position_inv_draw (b : Board) turn :
  position_inv b turn draw →
  full b ∧ count_mark X b = 5%nat ∧ count_mark O b = 4%nat ∧ turn = X.
Proof.
  intros (Hb & Hw & Hplay & _). pose proof Hb as [Hlen Hall].
  assert (includes_null b = false) as Hinc.
  { unfold TicTacToe.evaluateWinner in Hw.
    destruct (first_line b winningLines); [done|]. by destruct (includes_null b). }
  assert (count_null b = 0%nat) as Hzero.
  { rewrite <- (avail_from_length 0 b). change (avail_from 0 b) with (TicTacToe.available b).
    rewrite available_none; [done|]. intros i Hi.
    assert (includes_null b = true) by (apply includes_null_spec; eauto). congruence. }
  split; [by apply includes_null_full|].
  pose proof (count_partition b Hall) as Hpart.
  pose proof (legal_play_counts _ _ Hplay) as Hcount.
  destruct turn; simpl in Hcount; repeat split; lia.
Qed.

(** X13.  When every handler is run through before the next event (as
    when there is no sound to play), a game of either component that ends
    in a draw ends on a full board with five 'X' and four 'O', and with the
    turn on 'X': the ninth mark is the first player's, and it is never the
    computer that completes a drawn game. *)
Theorem X13_quiet_draw_is_five_to_four (s0 s : TicTacToe.state) (es : list TicTacToe.event)
    (p0 p : Part001.state) (pes : list Part001.event) :
  (fresh_game s0 → quiet_run s0 es s → TicTacToe.winner s = draw →
     full (TicTacToe.board s)
     ∧ count_mark X (TicTacToe.board s) = 5%nat
     ∧ count_mark O (TicTacToe.board s) = 4%nat
     ∧ TicTacToe.currentPlayer s = X)
  ∧ (p_fresh_game p0 → p_quiet_run p0 pes p → Part001.winner p = draw →
     full (Part001.board p)
     ∧ count_mark X (Part001.board p) = 5%nat
     ∧ count_mark O (Part001.board p) = 4%nat
     ∧ Part001.currentPlayer p = X).
Proof.
  split.
  - intros Hf Hrun Hw.
    pose proof (game_inv_run _ _ _ Hrun (game_inv_fresh _ Hf)) as Hinv.
    unfold game_inv in Hinv. rewrite Hw in Hinv. by apply position_inv_draw.
  - intros Hf Hrun Hw.
    pose proof (p_game_inv_run _ _ _ Hrun (p_game_inv_fresh _ Hf)) as Hinv.
    unfold p_game_inv in Hinv. rewrite Hw in Hinv. by apply position_inv_draw.
Qed.

Lemma X13_quiet_draw_is_five_to_four_witness :
  ∃ s, quiet_run (TicTacToe.toggleGameMode TicTacToe.initial)
         [TicTacToe.Press 0; TicTacToe.Press 1; TicTacToe.Press 3;
          TicTacToe.Press 4; TicTacToe.Press 2; TicTacToe.Press 6;
          TicTacToe.Press 7; TicTacToe.Press 5; TicTacToe.Press 8] s
       ∧ TicTacToe.winner s = draw
       ∧ count_mark X (TicTacToe.board s) = 5%nat
       ∧ count_mark O (TicTacToe.board s) = 4%nat.
Proof.
  eassert (quiet_run (TicTacToe.toggleGameMode TicTacToe.initial)
             [TicTacToe.Press 0; TicTacToe.Press 1; TicTacToe.Press 3;
              TicTacToe.Press 4; TicTacToe.Press 2; TicTacToe.Press 6;
              TicTacToe.Press 7; TicTacToe.Press 5; TicTacToe.Press 8] _) as Hrun.
  { do 9 qfire_press. apply quiet_nil. }
  eexists. split; [exact Hrun|]. split; [reflexivity|].
  pose proof (fun s0 s es =>
    proj1 (X13_quiet_draw_is_five_to_four s0 s es Part001.initial Part001.initial [])) as H.
  assert (fresh_game (TicTacToe.toggleGameMode TicTacToe.initial)) as Hf
    by (by repeat split).
  destruct (H _ _ _ Hf Hrun eq_refl) as (_ & Hx & Ho & _).
  by split.
Defined.

(** ** The two versions side by side *)

Lemma forget_settle s newBoard next :
  forget (settle s newBoard next) = Part001.settle (forget s) newBoard next.
Proof.
  unfold settle, Part001.settle. rewrite checkWinner_evaluateWinner.
  by destruct (TicTacToe.evaluateWinner newBoard).
Qed.

(** X14.  With every handler run through (as when there is no sound to
    play), part_001 is the component without the difficulty setting: seen
    through [forget], [updateGameState] run through is part_001's
    [handleClick] run through, a press in two-player mode is part_001's
    press, [resetGame] and [toggleGameMode] are their namesakes, the
    computer's move is due in the same states, and the easy branch of
    [makeComputerMove] run through, for a draw below the number of available
    cells, is part_001's [makeComputerMove]. *)
Theorem X14_quiet_part001_is_the_easy_component (s : TicTacToe.state) (index k : nat) :
  forget (q_updateGameState index s) = pq_handleClick index (forget s)
  ∧ (TicTacToe.gameMode s = multi →
     forget (q_handleClick index s) = pq_onPress index (forget s))
  ∧ forget (TicTacToe.resetGame s) = Part001.resetGame (forget s)
  ∧ forget (TicTacToe.toggleGameMode s) = Part001.toggleGameMode (forget s)
  ∧ TicTacToe.computerMoveDue s = Part001.computerMoveDue (forget s)
  ∧ (TicTacToe.difficulty s = easy →
     (k < length (TicTacToe.available (TicTacToe.board s)))%nat →
     forget <$> q_makeComputerMove k s
     = Some (Part001.makeComputerMove k (forget s))).
Proof.
  assert (forget (q_updateGameState index s)
          = pq_handleClick index (forget s)) as Hpress.
  { rewrite q_updateGameState_eq, pq_handleClick_eq.
    cbn [forget Part001.board Part001.winner Part001.currentPlayer].
    destruct (truthy (js_get (TicTacToe.board s) index)
              || outcome_truthy (TicTacToe.winner s)); [done|]. apply forget_settle. }
  split; [done|]. split; [|split; [done|split; [done|split; [done|]]]].
  - intros Hm. rewrite pq_onPress_handleClick, <- Hpress.
    rewrite q_handleClick_eq. rewrite Hm. by rewrite bool_decide_eq_true_2.
  - intros Hd Hk. rewrite q_makeComputerMove_eq. unfold Part001.makeComputerMove.
    rewrite Hd. cbn [TicTacToe.selectMove forget Part001.board].
    change (Part001.emptySquares (TicTacToe.board s))
      with (TicTacToe.available (TicTacToe.board s)).
    rewrite bool_decide_eq_true_2 by lia. cbn [fmap option_fmap option_map].
    by rewrite forget_settle.
Qed.

Lemma X14_quiet_part001_is_the_easy_component_witness :
  let s := q_handleClick 4 (TicTacToe.toggleDifficulty TicTacToe.initial) in
  forget <$> q_makeComputerMove 3 s = Some (Part001.makeComputerMove 3 (forget s)).
Proof.
  intros s.
  destruct (X14_quiet_part001_is_the_easy_component s 0 3) as (_ & _ & _ & _ & _ & H).
  apply H; [reflexivity|]. vm_compute. lia.
Defined.

(** ** The hard computer over whole sessions *)

Lemma never_lost_fresh s :
  TicTacToe.board s = initialBoard → TicTacToe.currentPlayer s = X →
  TicTacToe.winner s = no_winner → never_lost s.
Proof.
  intros Hb Ht Hw. unfold never_lost. rewrite Hb, Ht, Hw.
  split; [apply is_board_initial|]. intros _ _. exists 5%nat. apply safeX_initialBoard.
Qed.

Lemma never_lost_press s index :
  never_lost s → (index < 9)%nat → never_lost (q_handleClick index s).
Proof.
  intros [Hb Hinv] Hi. rewrite q_handleClick_eq.
  destruct (_ || _) eqn:Hgate; [|done].
  destruct (q_updateGameState_cases s index Hb Hi) as [->|(Hnull & Hw & ->)]; [done|].
  split; [rewrite settle_board; by apply is_board_insert|].
  destruct (settle_config s (<[index:=str (TicTacToe.currentPlayer s)]> (TicTacToe.board s))
              (other (TicTacToe.currentPlayer s))) as [-> ->].
  intros Hm Hd. specialize (Hinv Hm Hd). rewrite Hw in Hinv.
  rewrite Hm in Hgate. rewrite bool_decide_eq_false_2 in Hgate by done.
  simpl in Hgate. apply bool_decide_eq_true in Hgate. rewrite Hgate in *.
  destruct Hinv as [n Hsafe]. destruct n as [|n]; [done|].
  rewrite safeX_S, forallb_forall in Hsafe.
  specialize (Hsafe index). rewrite (truthy_get_null _ _ Hnull) in Hsafe.
  rewrite (js_set_null_cell _ _ _ Hnull) in Hsafe.
  assert (In index (seq 0 9)) as Hin by (apply in_seq; lia).
  specialize (Hsafe Hin). unfold afterX in Hsafe.
  rewrite settle_winner, settle_turn, settle_board, Hw.
  destruct (TicTacToe.evaluateWinner _) as [| |[|]]; try done. simpl. eauto.
Qed.

Lemma never_lost_timer s k s' :
  never_lost s → quiet_step s (TicTacToe.TimerFires k) s' → never_lost s'.
Proof.
  intros [Hb Hinv] Hstep. split; [by eapply quiet_is_board|].
  inversion Hstep as [|k' t Hdue Hk Hrun| | |]; subst.
  apply computerMoveDue_spec in Hdue as (Hm & Ht & Hw).
  rewrite q_makeComputerMove_eq in Hrun.
  destruct (TicTacToe.selectMove _ _ _) as [[move cb]|] eqn:Hsel; [|done].
  injection Hrun as <-.
  destruct (settle_config s (js_set_at cb move (str O)) X) as [-> ->].
  intros _ Hd. specialize (Hinv Hm Hd). rewrite Hw, Ht in Hinv.
  destruct Hinv as [n Hsafe]. unfold safeO in Hsafe.
  rewrite Hd in Hsel. change (TicTacToe.selectMove hard k (TicTacToe.board s))
    with (TicTacToe.selectMove hard 0 (TicTacToe.board s)) in Hsel.
  rewrite Hsel in Hsafe. rewrite settle_winner, settle_turn, settle_board, Hw.
  destruct (TicTacToe.evaluateWinner _) as [| |[|]]; try done. eauto.
Qed.

Lemma never_lost_step s e s' :
  quiet_step s e s' → never_lost s → never_lost s'.
Proof.
  intros Hstep Hinv. pose proof Hstep as Hstep'.
  destruct Hstep' as [index Hi|k s' Hdue Hk Hrun| | |].
  - apply never_lost_press; [done|]. destruct Hinv as [[Hlen _] _]. lia.
  - by eapply never_lost_timer.
  - by apply never_lost_fresh.
  - by apply never_lost_fresh.
  - by apply never_lost_fresh.
Qed.

Lemma never_lost_run s es s' :
  quiet_run s es s' → never_lost s → never_lost s'.
Proof.
  induction 1 as [|s e s1 es s2 Hstep Hrun IH]; [done|].
  intros Hinv. apply IH. by eapply never_lost_step.
Qed.


(** X19.  When every handler is run through before the next event (as
    when there is no sound to play), the hard computer never loses in the
    component: in every state reached from a fresh game by presses,
    computer moves, resets and mode or difficulty changes, if the component
    is in single-player mode at the hard difficulty then the recorded
    winner is not 'X', and a finished game is a draw or a win of 'O'. *)
Theorem X19_quiet_hard_never_loses (s0 s : TicTacToe.state) (es : list TicTacToe.event) :
  fresh_game s0 → quiet_run s0 es s →
  TicTacToe.gameMode s = single → TicTacToe.difficulty s = hard →
  TicTacToe.winner s ≠ won X
  ∧ (TicTacToe.winner s ≠ no_winner →
     TicTacToe.winner s = draw ∨ TicTacToe.winner s = won O).
Proof.
  intros (Hb & Ht & Hw) Hrun Hm Hd.
  destruct (never_lost_run _ _ _ Hrun (never_lost_fresh _ Hb Ht Hw)) as [_ Hinv].
  specialize (Hinv Hm Hd).
  destruct (TicTacToe.winner s) as [| |[|]]; [done|split; [done|by left]|done|].
  split; [done|by right].
Qed.

Lemma X19_quiet_hard_never_loses_witness :
  ∃ s, quiet_run TicTacToe.initial
         [TicTacToe.Press 0; TicTacToe.TimerFires 0; TicTacToe.Press 1;
          TicTacToe.TimerFires 0; TicTacToe.Press 3; TicTacToe.TimerFires 0] s
       ∧ TicTacToe.winner s = won O
       ∧ TicTacToe.winner s ≠ won X.
Proof.
  eassert (quiet_run TicTacToe.initial
             [TicTacToe.Press 0; TicTacToe.TimerFires 0; TicTacToe.Press 1;
              TicTacToe.TimerFires 0; TicTacToe.Press 3; TicTacToe.TimerFires 0] _) as Hrun.
  { qfire_press. qfire_timer. qfire_press. qfire_timer. qfire_press. qfire_timer.
    apply quiet_nil. }
  eexists. split; [exact Hrun|]. split; [reflexivity|].
  assert (fresh_game TicTacToe.initial) as Hf by (by repeat split).
  apply (X19_quiet_hard_never_loses TicTacToe.initial _ _ Hf Hrun eq_refl eq_refl).
Defined.

Lemma quiet_keeps_config s e s' :
  quiet_step s e s' → keeps_config e →
  TicTacToe.gameMode s' = TicTacToe.gameMode s
  ∧ TicTacToe.difficulty s' = TicTacToe.difficulty s.
Proof.
  intros Hstep Hkeep.
  destruct Hstep as [index Hi|k s' Hdue Hk Hrun| | |]; simpl in Hkeep; try tauto; try done.
  - rewrite q_handleClick_eq. destruct (_ || _); [|done].
    rewrite q_updateGameState_eq. destruct (_ || _); [done|]. apply settle_config.
  - rewrite q_makeComputerMove_eq in Hrun.
    destruct (TicTacToe.selectMove _ _ _) as [[move cb]|]; [|done].
    injection Hrun as <-. apply settle_config.
Qed.

Lemma hard_step_score_X s e s' :
  quiet_step s e s' → never_lost s' →
  TicTacToe.gameMode s' = single → TicTacToe.difficulty s' = hard →
  score_X (TicTacToe.scores s') = score_X (TicTacToe.scores s).
Proof.
  intros Hstep [_ Hinv] Hm Hd. specialize (Hinv Hm Hd).
  destruct (quiet_scores _ _ _ Hstep) as [Hwin Hsame].
  destruct (decide (TicTacToe.winner s = no_winner)) as [Hw|Hw].
  - destruct (TicTacToe.winner s') as [| |[|]] eqn:Hw'.
    + by rewrite Hsame by auto.
    + by rewrite Hsame by auto.
    + done.
    + by rewrite (Hwin O Hw eq_refl).
  - by rewrite Hsame by auto.
Qed.

Lemma hard_run_score_X s es s' :
  quiet_run s es s' → never_lost s →
  TicTacToe.gameMode s = single → TicTacToe.difficulty s = hard →
  Forall keeps_config es →
  score_X (TicTacToe.scores s') = score_X (TicTacToe.scores s).
Proof.
  induction 1 as [|s e s1 es s2 Hstep Hrun IH]; intros Hinv Hm Hd Hall; [done|].
  apply Forall_cons in Hall as [He Hes].
  destruct (quiet_keeps_config _ _ _ Hstep He) as [Hm1 Hd1].
  pose proof (never_lost_step _ _ _ Hstep Hinv) as Hinv1.
  rewrite IH; [|done|congruence|congruence|done].
  apply (hard_step_score_X _ _ _ Hstep Hinv1); congruence.
Qed.

(** X15.  When every handler is run through before the next event (as
    when there is no sound to play), and while the component stays in
    single-player mode at the hard difficulty, the tally of 'X' never moves:
    over any sequence of presses, computer moves and resets that begins with
    a fresh game, the human's score at the end is the score at the
    beginning. *)
Theorem X15_quiet_hard_mode_keeps_X_tally (s0 s : TicTacToe.state) (es : list TicTacToe.event) :
  fresh_game s0 → TicTacToe.gameMode s0 = single → TicTacToe.difficulty s0 = hard →
  quiet_run s0 es s → Forall keeps_config es →
  score_X (TicTacToe.scores s) = score_X (TicTacToe.scores s0).
Proof.
  intros (Hb & Ht & Hw) Hm Hd Hrun Hall.
  by apply (hard_run_score_X _ _ _ Hrun (never_lost_fresh _ Hb Ht Hw)).
Qed.

Lemma X15_quiet_hard_mode_keeps_X_tally_witness :
  ∃ s, quiet_run TicTacToe.initial
         [TicTacToe.Press 0; TicTacToe.TimerFires 0; TicTacToe.Press 1;
          TicTacToe.TimerFires 0; TicTacToe.Press 3; TicTacToe.TimerFires 0;
          TicTacToe.PressReset] s
       ∧ score_O (TicTacToe.scores s) = 1
       ∧ score_X (TicTacToe.scores s) = 0.
Proof.
  eassert (quiet_run TicTacToe.initial
             [TicTacToe.Press 0; TicTacToe.TimerFires 0; TicTacToe.Press 1;
              TicTacToe.TimerFires 0; TicTacToe.Press 3; TicTacToe.TimerFires 0;
              TicTacToe.PressReset] _) as Hrun.
  { qfire_press. qfire_timer. qfire_press. qfire_timer. qfire_press. qfire_timer.
    eapply quiet_cons; [apply quiet_reset|]. apply quiet_nil. }
  eexists. split; [exact Hrun|]. split; [reflexivity|].
  assert (fresh_game TicTacToe.initial) as Hf by (by repeat split).
  apply (X15_quiet_hard_mode_keeps_X_tally TicTacToe.initial _ _ Hf eq_refl eq_refl Hrun).
  repeat constructor.
Defined.

(** ** Runs with every handler run through *)



(** ** The shape of the board, whatever the interleaving *)

Lemma record_outcome_board s gameWinner next :
  TicTacToe.board (TicTacToe.record_outcome s gameWinner next) = TicTacToe.board s.
Proof. by destruct gameWinner. Qed.

Lemma is_board_js_set (b : Board) i v :
  is_board b → (i < 9)%nat → v ≠ undefined → is_board (js_set b i v).
Proof.
  intros Hb Hi Hv. rewrite js_set_in_range by (destruct Hb; lia).
  by apply is_board_insert.
Qed.

Lemma handleClick_shape index s :
  TicTacToe.handleClick index s = (s, None)
  ∨ TicTacToe.handleClick index s
    = (TicTacToe.setBoard s (js_set (TicTacToe.board s) index (str (TicTacToe.currentPlayer s))),
       Some (TicTacToe.rest_of_updateGameState
               (js_set (TicTacToe.board s) index (str (TicTacToe.currentPlayer s)))
               (TicTacToe.currentPlayer s))).
Proof.
  unfold TicTacToe.handleClick, TicTacToe.updateGameState.
  destruct (_ || _); [|by left]. destruct (_ || _); [by left|by right].
Qed.

Lemma makeComputerMove_shape s k s' c :
  is_board (TicTacToe.board s) →
  random_index k (length (TicTacToe.available (TicTacToe.board s))) →
  TicTacToe.makeComputerMove k s = Some (s', c) →
  s' = s ∧ continuation_ok c.
Proof.
  intros Hb Hk Hrun.
  destruct (null_cell_dec (TicTacToe.board s)) as [[i0 Hi0]|Hnone].
  - pose proof (random_index_lt _ _ _ Hi0 Hk) as Hlt.
    destruct (makeComputerMove_applied s k Hb Hlt) as (i & Hnull & Heq).
    rewrite Heq in Hrun. injection Hrun as <- <-. split; [done|]. split; [done|].
    intros j [= <-]. apply lookup_lt_Some in Hnull. destruct Hb. lia.
  - rewrite (makeComputerMove_full s k Hb Hnone) in Hrun. injection Hrun as <- <-.
    split; [done|]. by split.
Qed.

Lemma config_ok_step cfg e cfg' :
  TicTacToe.step cfg e cfg' → config_ok cfg → config_ok cfg'.
Proof.
  intros Hstep [Hb Hall]. simpl in Hb, Hall.
  destruct Hstep as [s ps index s' c Hi Hh|s ps k s' c Hdue Hk Hrun|s ps j c Hj|s ps|s ps|s ps];
    simpl in *.
  - assert (index < 9)%nat as Hi9 by (destruct Hb; lia).
    destruct (handleClick_shape index s) as [Heq|Heq]; rewrite Heq in Hh;
      injection Hh as <- <-.
    + split; simpl; [done|by rewrite app_nil_r].
    + split; simpl; [by apply is_board_js_set|].
      apply Forall_app. split; [done|]. apply Forall_singleton. simpl.
      by apply is_board_js_set.
  - destruct (makeComputerMove_shape s k s' c Hb Hk Hrun) as [-> Hc].
    split; simpl; [done|]. apply Forall_app. split; [done|]. by apply Forall_singleton.
  - split; simpl; [|by apply Forall_delete].
    rewrite Forall_lookup in Hall. specialize (Hall j c Hj).
    destruct c as [newBoard turn|currentBoard [i|]]; simpl in *.
    + by rewrite record_outcome_board.
    + rewrite record_outcome_board. simpl. destruct Hall as [Hcb Hmove].
      apply is_board_js_set; [done|by apply Hmove|done].
    + rewrite record_outcome_board. simpl. by destruct Hall.
  - split; [apply is_board_initial|done].
  - split; [apply is_board_initial|done].
  - split; [apply is_board_initial|done].
Qed.

Lemma p_config_ok_step cfg e cfg' :
  Part001.step cfg e cfg' → p_config_ok cfg → p_config_ok cfg'.
Proof.
  intros Hstep [Hb Hall]. simpl in Hb, Hall.
  destruct Hstep as [s ps index Hi|s ps k Hdue Hk|s ps j c Hj|s ps|s ps]; simpl in *.
  - split; simpl; [done|]. apply Forall_app. split; [done|].
    rewrite p_onPress_handleClick. unfold Part001.handleClick.
    destruct (_ || _); simpl; [done|]. apply Forall_singleton. simpl.
    split; [done|]. destruct Hb. lia.
  - split; simpl; [|done]. unfold Part001.makeComputerMove.
    case_bool_decide as Hpos; [|done]. rewrite p_settle_board.
    destruct (Part001.emptySquares (Part001.board s) !! k) as [i|] eqn:Hi; simpl; [|done].
    apply available_lookup in Hi.
    apply is_board_js_set; [done| |done].
    apply lookup_lt_Some in Hi. destruct Hb. lia.
  - split; simpl; [|by apply Forall_delete].
    rewrite Forall_lookup in Hall. specialize (Hall j c Hj).
    destruct c as [b index turn]. simpl in *. rewrite p_settle_board.
    destruct Hall. by apply is_board_js_set.
  - split; [apply is_board_initial|done].
  - split; [apply is_board_initial|done].
Qed.

Lemma config_ok_run cfg es cfg' :
  TicTacToe.run cfg es cfg' → config_ok cfg → config_ok cfg'.
Proof.
  induction 1 as [|c e c1 es0 c2 Hstep Hrun IH]; [done|].
  intros Hok. apply IH. by eapply config_ok_step.
Qed.

Lemma p_config_ok_run cfg es cfg' :
  Part001.run cfg es cfg' → p_config_ok cfg → p_config_ok cfg'.
Proof.
  induction 1 as [|c e c1 es0 c2 Hstep Hrun IH]; [done|].
  intros Hok. apply IH. by eapply p_config_ok_step.
Qed.

(** X21.  Whatever the interleaving of presses, computer moves, buttons
    and resumed handlers, the board of either component keeps its shape:
    from a state whose board has nine cells, none of them [undefined], with
    no handler suspended, every run ends in a state whose board has nine
    cells, none of them [undefined], and every handler still suspended
    holds such a board and, if it holds a cell to write, one of its nine
    cells. *)
Theorem X21_boards_keep_their_shape
    (s s' : TicTacToe.state) (pending : list TicTacToe.continuation)
    (es : list TicTacToe.event)
    (p p' : Part001.state) (p_pending : list Part001.continuation)
    (pes : list Part001.event) :
  (is_board (TicTacToe.board s) → TicTacToe.run (s, []) es (s', pending) →
     is_board (TicTacToe.board s') ∧ Forall continuation_ok pending)
  ∧ (is_board (Part001.board p) → Part001.run (p, []) pes (p', p_pending) →
     is_board (Part001.board p') ∧ Forall p_continuation_ok p_pending).
Proof.
  split; intros Hb Hrun.
  - by apply (config_ok_run _ _ _ Hrun).
  - by apply (p_config_ok_run _ _ _ Hrun).
Qed.

Lemma X21_boards_keep_their_shape_witness :
  ∃ s pending,
    TicTacToe.run (TicTacToe.initial, [])
      [TicTacToe.Press 0; TicTacToe.Press 1; TicTacToe.SoundDone 1] (s, pending)
    ∧ is_board (TicTacToe.board s) ∧ Forall continuation_ok pending.
Proof.
  eassert (TicTacToe.run (TicTacToe.initial, [])
             [TicTacToe.Press 0; TicTacToe.Press 1; TicTacToe.SoundDone 1] (_, _)) as Hrun.
  { fire_press. fire_press. fire_sound. apply TicTacToe.run_nil. }
  eexists _, _. split; [exact Hrun|].
  pose proof (fun s' pending es =>
    proj1 (X21_boards_keep_their_shape TicTacToe.initial s' pending es
             Part001.initial Part001.initial [] [])) as H.
  apply (H _ _ _ is_board_initial Hrun).
Defined.

(** ** An accepted press, before its sound *)


